(** * Point positioning by damped Newton-Raphson: [algorithms/snapshot.py]

    A shallow embedding of [newton_raphson] and [_solve_pos] together with
    the part of numpy they use.  Numbers are idealised as real numbers, so
    every statement below is about exact arithmetic; rounding, overflow and
    underflow of binary64 are outside the model.  The one place where the
    code makes a non-finite value out of finite ones, the division by a zero
    range in [df], is modelled: an entry of a Jacobian is a real number or
    non-finite, and [np.linalg.pinv] raises on a non-finite entry.  Python
    exceptions and the unbounded [while] loop are explicit in the result
    type. *)

From Stdlib Require Import Reals List Lia Lra PeanoNat Bool.
Import ListNotations.

Local Open Scope R_scope.

(** ** Outcomes of a Python call *)

Inductive exn : Type :=
| ValueError   (* shape mismatch in broadcasting or matmul, bad unpacking *)
| IndexError   (* indexing an empty array *)
| LinAlgError  (* np.linalg.pinv on a matrix with a non-finite entry *)
| Exception.   (* anything a caller-supplied function raises *)

(** [Diverge] is the outcome of a loop still running when the fuel is spent;
    the source has no such bound, fuel only makes the loop a [Fixpoint]. *)
Inductive result (A : Type) : Type :=
| Ok (a : A)
| Raise (e : exn)
| Diverge.

Arguments Ok {A} a.
Arguments Raise {A} e.
Arguments Diverge {A}.

Definition bind {A B : Type} (c : result A) (k : A -> result B) : result B :=
  match c with
  | Ok a => k a
  | Raise e => Raise e
  | Diverge => Diverge
  end.

Notation "x <- c ;; k" := (bind c (fun x => k))
  (at level 61, c at next level, right associativity).
Notation "' pat <- c ;; k" := (bind c (fun x => match x with pat => k end))
  (at level 61, pat pattern, c at next level, right associativity).

(** ** One- and two-dimensional arrays *)

Definition ndarray : Type := list R.
Definition matrix : Type := list (list R).   (* a list of rows *)

(** Arrays whose entries may be non-finite: [None] stands for a
    not-a-number or an infinity. *)
Definition farray : Type := list (option R).
Definition fmatrix : Type := list (list (option R)).

Fixpoint map2 {A : Type} (op : R -> R -> A) (a b : ndarray) : list A :=
  match a, b with
  | x :: a', y :: b' => op x y :: map2 op a' b'
  | _, _ => []
  end.

Module np.

(** Binary ufunc on two 1-D arrays, with numpy's broadcasting rule: equal
      lengths go elementwise, a length-1 operand is stretched, anything else
      raises. *)
Definition broadcast {A : Type} (op : R -> R -> A) (a b : ndarray)
    : result (list A) :=
    if (length a =? length b)%nat then Ok (map2 op a b)
    else match a, b with
         | [x], _ => Ok (map (op x) b)
         | _, [y] => Ok (map (fun x => op x y) a)
         | _, _ => Raise ValueError
         end.

Definition add := broadcast Rplus.
Definition subtract := broadcast Rminus.

(** Division by zero is answered by numpy with a not-a-number or an
    infinity and a warning, not with an exception: the entry is non-finite. *)
Definition true_divide (x y : R) : option R :=
    if Req_dec_T y 0 then None else Some (x / y).

Definition divide := broadcast true_divide.

(** A matrix of real numbers as a 2-D array. *)
Definition array (M : matrix) : fmatrix := map (map Some) M.

(** Python scalar with an array. *)
Definition scalar_sub (x : R) (a : ndarray) : ndarray := map (fun y => x - y) a.
Definition add_scalar (a : ndarray) (x : R) : ndarray := map (fun y => y + x) a.
Definition scalar_mul (x : R) (a : ndarray) : ndarray := map (fun y => x * y) a.
Definition negative (a : ndarray) : ndarray := map Ropp a.
Definition square (a : ndarray) : ndarray := map (fun y => y ^ 2) a.

Definition sqrt (a : ndarray) : ndarray := map R_sqrt.sqrt a.
Definition abs (a : ndarray) : ndarray := map Rabs a.
Definition sum (a : ndarray) : R := fold_right Rplus 0 a.
Definition ones_like (a : ndarray) : ndarray := map (fun _ => 1) a.

(** [np.empty(4)] allocates without initialising: the four cells hold
      whatever was in memory, which is an input of the model. *)
Definition empty4 (mem : R * R * R * R) : ndarray :=
    let '(m0, m1, m2, m3) := mem in [m0; m1; m2; m3].

Definition dot (u v : ndarray) : R := sum (map2 Rmult u v).

(** [M @ v] for a 2-D [M] and a 1-D [v]: every row must be as long as [v].
      A list of rows does not record the width of a matrix without rows. *)
Definition matmul (M : matrix) (v : ndarray) : result ndarray :=
    if forallb (fun row => (length row =? length v)%nat) M
    then Ok (map (fun row => dot row v) M)
    else Raise ValueError.

Module linalg.
Definition norm (a : ndarray) : R := R_sqrt.sqrt (sum (square a)).

(** The real entries of an array that has no non-finite entry. *)
Fixpoint finite_array (a : farray) : option ndarray :=
    match a with
    | [] => Some []
    | Some x :: a' => option_map (cons x) (finite_array a')
    | None :: _ => None
    end.

Fixpoint finite_matrix (J : fmatrix) : option matrix :=
    match J with
    | [] => Some []
    | row :: J' =>
        match finite_array row, finite_matrix J' with
        | Some r, Some M => Some (r :: M)
        | _, _ => None
        end
    end.
End linalg.

(** [a[-1]] and [a[-1] = v]. *)
Definition getitem_last (a : ndarray) : result R :=
    match a with
    | [] => Raise IndexError
    | _ => Ok (last a 0)
    end.

Definition setitem_last (a : ndarray) (v : R) : result ndarray :=
    match a with
    | [] => Raise IndexError
    | _ => Ok (removelast a ++ [v])
    end.

(** [derivatives[:, j] = col] on a matrix of [n] rows: [col] is broadcast to
      length [n]. *)
Definition column {A : Type} (n : nat) (col : list A) : result (list A) :=
    if (length col =? n)%nat then Ok col
    else match col with
         | [c] => Ok (repeat c n)
         | _ => Raise ValueError
         end.

End np.

Module gpsconsts.
(** Modelled from the spec: [utils.constants.gpsconsts] is not among the
      sources; the spec calls [C] the speed of light in metres per second. *)
Definition C : R := 299792458.
End gpsconsts.

(** ** [newton_raphson] *)

Definition default_e : R := 1 / 1000.
Definition default_lam : R := 1.

Section Solver.

(** The Moore-Penrose pseudo-inverse of a matrix of real numbers is
      numpy's: the development is parametric in it. *)
Variable pinv : matrix -> matrix.

(** [np.linalg.pinv]: the singular value decomposition does not converge on
      a matrix with a non-finite entry, and numpy raises. *)
Definition linalg_pinv (J : fmatrix) : result matrix :=
    match np.linalg.finite_matrix J with
    | Some M => Ok (pinv M)
    | None => Raise LinAlgError
    end.

Variable f : ndarray -> result ndarray.
Variable df : ndarray -> result fmatrix.
Variable e lam : R.

(** The loop body: Python evaluates [lam*(np.linalg.pinv(df(x0)) @ f(x0))]
      from the left, [df], then [pinv], then [f]; the result is the new [x0]
      and the step [delta_x]. *)
Definition newton_step (x0 : ndarray) : result (ndarray * ndarray) :=
    J <- df x0 ;;
    P <- linalg_pinv J ;;
    r <- f x0 ;;
    v <- np.matmul P r ;;
    let delta_x := np.scalar_mul lam v in
    x0' <- np.subtract x0 delta_x ;;
    Ok (x0', delta_x).

(** The [while] loop from the state [(x0, delta_x)]; [k] is a ghost counter
      of the iterations made so far. *)
Fixpoint while_loop (fuel : nat) (x0 delta_x : ndarray) (k : nat)
    : result (ndarray * ndarray * nat) :=
    if Rgt_dec (np.sum (np.abs delta_x)) e then
      match fuel with
      | O => Diverge
      | S fuel' =>
          '(x0', delta_x') <- newton_step x0 ;;
          while_loop fuel' x0' delta_x' (S k)
      end
    else Ok (x0, delta_x, k).

Definition newton_raphson (fuel : nat) (x0 : ndarray) : result (ndarray * R) :=
    '(x, _, _) <- while_loop fuel x0 (np.ones_like x0) 0%nat ;;
    r <- f x ;;
    Ok (x, np.linalg.norm r).

(** State and step after [k] passes through the loop body, with no test in
      between. *)
Fixpoint iterate (k : nat) (s : ndarray * ndarray) : result (ndarray * ndarray) :=
    match k with
    | O => Ok s
    | S k' => s' <- newton_step (fst s) ;; iterate k' s'
    end.

End Solver.

(** ** [_solve_pos] *)

Module SolvePos.
Section Closures.

Variables prange X Y Z B : ndarray.

Definition tilde_prange (x y z : R) : result ndarray :=
    sx <- np.add (np.square (np.scalar_sub x X)) (np.square (np.scalar_sub y Y)) ;;
    s <- np.add sx (np.square (np.scalar_sub z Z)) ;;
    Ok (np.sqrt s).

Definition f (vars : ndarray) : result ndarray :=
    match vars with
    | [x; y; z; cdt] =>
        tilde <- tilde_prange x y z ;;
        _prange <- np.subtract (np.add_scalar tilde cdt) B ;;
        delta_prange <- np.subtract prange _prange ;;
        Ok delta_prange
    | _ => Raise ValueError
    end.

Definition df (vars : ndarray) : result fmatrix :=
    match vars with
    | [x; y; z; cdt] =>
        tilde <- tilde_prange x y z ;;
        _prange <- np.subtract (np.add_scalar tilde cdt) B ;;
        delta_prange <- np.subtract prange _prange ;;
        let n := length prange in
        q0 <- np.divide (np.negative (np.scalar_sub x X)) tilde ;;
        c0 <- np.column n q0 ;;
        q1 <- np.divide (np.negative (np.scalar_sub y Y)) tilde ;;
        c1 <- np.column n q1 ;;
        q2 <- np.divide (np.negative (np.scalar_sub z Z)) tilde ;;
        c2 <- np.column n q2 ;;
        Ok (map (fun i => [nth i c0 None; nth i c1 None; nth i c2 None; Some (-1)])
              (seq 0 n))
    | _ => Raise ValueError
    end.

End Closures.
End SolvePos.

Definition _solve_pos (pinv : matrix -> matrix) (fuel : nat) (mem : R * R * R * R)
  (prange X Y Z B : ndarray) (e : R) : result ndarray :=
  if (length prange <? 4)%nat then Ok (np.empty4 mem)
  else
    let '(x, y, z, cdt) := (100, 100, 100, 0) in
    let x0 := [x; y; z; cdt] in
    '(x_fix, res_err) <-
      newton_raphson pinv (SolvePos.f prange X Y Z B) (SolvePos.df prange X Y Z B)
        e default_lam fuel x0 ;;
    c <- np.getitem_last x_fix ;;
    np.setitem_last x_fix (c * 1000000 / gpsconsts.C).

(** ** Auxiliary definitions for the statements *)

(** Distance from the candidate position to satellite [i]. *)
Definition geometric_range (X Y Z : ndarray) (x y z : R) (i : nat) : R :=
  sqrt ((x - nth i X 0) ^ 2 + (y - nth i Y 0) ^ 2 + (z - nth i Z 0) ^ 2).

(** The arrays the closures build on the way, when all shapes agree. *)
Definition squares (X Y Z : ndarray) (x y z : R) : ndarray :=
  map2 Rplus (map2 Rplus (np.square (np.scalar_sub x X))
                         (np.square (np.scalar_sub y Y)))
             (np.square (np.scalar_sub z Z)).

Definition ranges (X Y Z : ndarray) (x y z : R) : ndarray :=
  np.sqrt (squares X Y Z x y z).

Definition modeled (X Y Z B : ndarray) (x y z cdt : R) : ndarray :=
  map2 Rminus (np.add_scalar (ranges X Y Z x y z) cdt) B.

Definition quotient (X Y Z : ndarray) (x y z c : R) (A : ndarray) : farray :=
  map2 np.true_divide (np.negative (np.scalar_sub c A)) (ranges X Y Z x y z).

(** Entry [i] of the residual at a state, as a real function of the state
    ([0] where the closure raises). *)
Definition residual_at (prange X Y Z B : ndarray) (i : nat) (x y z cdt : R) : R :=
  match SolvePos.f prange X Y Z B [x; y; z; cdt] with
  | Ok r => nth i r 0
  | _ => 0
  end.

(** A vector all of whose entries are zero. *)
Definition all_zero (v : ndarray) : Prop := Forall (fun a => a = 0) v.

(** ** Concrete instances for closed examples *)

Definition transpose (M : matrix) : matrix :=
  match M with
  | [] => []
  | row :: _ => map (fun j => map (fun r => nth j r 0) M) (seq 0 (length row))
  end.

(** On a matrix with orthonormal columns, the identity among them, the
    Moore-Penrose inverse is the transpose.  The closed examples instantiate
    the parameter with it; those that run the loop body do so with the
    identity as Jacobian. *)
Definition pinv_isometry : matrix -> matrix := transpose.

Definition I4 : matrix :=
  [[1; 0; 0; 0]; [0; 1; 0; 0]; [0; 0; 1; 0]; [0; 0; 0; 1]].

(** On an invertible square matrix the Moore-Penrose inverse is the inverse,
    here by Cramer's rule: cofactors over the determinant, the determinant
    expanded along the first row. *)
Fixpoint remove_nth {A : Type} (i : nat) (l : list A) : list A :=
  match l with
  | [] => []
  | h :: t => match i with O => t | S i' => h :: remove_nth i' t end
  end.

Definition minor (M : matrix) (i j : nat) : matrix :=
  map (remove_nth j) (remove_nth i M).

Definition sign (k : nat) : R := if Nat.even k then 1 else -1.

Fixpoint det (n : nat) (M : matrix) : R :=
  match n with
  | O => 1
  | S n' =>
      np.sum (map (fun j => sign j * nth j (hd [] M) 0 * det n' (minor M 0 j))
                  (seq 0 (S n')))
  end.

Definition inverse (M : matrix) : matrix :=
  let n := length M in
  map (fun i =>
         map (fun j => sign (i + j) * det (n - 1) (minor M j i) / det n M)
             (seq 0 n))
      (seq 0 n).

Definition pinv_inverse : matrix -> matrix := inverse.

Ltac vec_ring :=
  repeat (apply (f_equal2 (@cons R)); [ try ring | ]); try reflexivity.

(** The example epoch: four satellites, zero corrections. *)
Definition ex_X : ndarray := [20200000; 0; 0; 14284273].
Definition ex_Y : ndarray := [0; 20200000; 0; 14284273].
Definition ex_Z : ndarray := [0; 0; 20200000; 14284273].
Definition ex_B : ndarray := [0; 0; 0; 0].
Definition ex_prange : ndarray := [20200000; 20200000; 20200000; 24741087].

(** An epoch seen from the position [(100, 100, 100)] of the initial guess
    by a receiver whose clock is off by one metre: four satellites at
    20000 km along the axes, every pseudorange one metre longer than the
    range. *)
Definition clock_X : ndarray := [20000100; 100; 100; -19999900].
Definition clock_Y : ndarray := [100; 20000100; 100; 100].
Definition clock_Z : ndarray := [100; 100; 20000100; 100].
Definition clock_B : ndarray := [0; 0; 0; 0].
Definition clock_prange : ndarray := [20000001; 20000001; 20000001; 20000001].

(** Its Jacobian at that position, and the inverse of the Jacobian. *)
Definition clock_J : matrix :=
  [[1; 0; 0; -1]; [0; 1; 0; -1]; [0; 0; 1; -1]; [-1; 0; 0; -1]].
Definition clock_P : matrix :=
  [[1 / 2; 0; 0; - (1 / 2)]; [- (1 / 2); 1; 0; - (1 / 2)];
   [- (1 / 2); 0; 1; - (1 / 2)]; [- (1 / 2); 0; 0; - (1 / 2)]].

(** A short epoch: the first three satellites only. *)
Definition short_X : ndarray := [20200000; 0; 0].
Definition short_Y : ndarray := [0; 20200000; 0].
Definition short_Z : ndarray := [0; 0; 20200000].
Definition short_B : ndarray := [0; 0; 0].
Definition short_prange : ndarray := [20200000; 20200000; 20200000].

(** ** General facts: the result monad and the array primitives *)

Lemma bind_Ok {A B : Type} (c : result A) (k : A -> result B) (b : B) :
  bind c k = Ok b <-> exists a, c = Ok a /\ k a = Ok b.
Proof.
  split.
  - destruct c as [a| |]; simpl; intros H; try discriminate. now exists a.
  - intros [a [-> H]]. exact H.
Qed.

Lemma map2_length {A : Type} (op : R -> R -> A) (a b : ndarray) :
  length a = length b -> length (map2 op a b) = length a.
Proof.
  revert b. induction a as [|x a IH]; intros [|y b] H; simpl in *;
    try discriminate; auto.
Qed.

Lemma map2_nth {A : Type} (op : R -> R -> A) (a b : ndarray) (i : nat) (d : A) :
  length a = length b -> (i < length a)%nat ->
  nth i (map2 op a b) d = op (nth i a 0) (nth i b 0).
Proof.
  revert b i. induction a as [|x a IH]; intros [|y b] [|i] H Hi; simpl in *;
    try discriminate; try lia; auto.
  apply IH; lia.
Qed.

Lemma map_nth_lt (g : R -> R) (a : ndarray) (i : nat) :
  (i < length a)%nat -> nth i (map g a) 0 = g (nth i a 0).
Proof.
  revert i. induction a as [|x a IH]; intros [|i] Hi; simpl in *; try lia; auto.
  apply IH; lia.
Qed.

Lemma map_seq_nth {A : Type} (g : nat -> A) (n i : nat) (d : A) :
  (i < n)%nat -> nth i (map g (seq 0 n)) d = g i.
Proof.
  intros Hi. rewrite (nth_indep _ d (g 0%nat)) by now rewrite length_map, length_seq.
  rewrite (map_nth g), seq_nth by exact Hi. reflexivity.
Qed.

Lemma broadcast_same {A : Type} (op : R -> R -> A) (a b : ndarray) :
  length a = length b -> np.broadcast op a b = Ok (map2 op a b).
Proof.
  intros H. unfold np.broadcast. now rewrite H, Nat.eqb_refl.
Qed.

(** Broadcasting keeps the length of a left operand that is not of length
    one, whatever the right operand. *)
Lemma broadcast_length (op : R -> R -> R) (a b c : ndarray) :
  np.broadcast op a b = Ok c -> length a <> 1%nat -> length c = length a.
Proof.
  unfold np.broadcast. destruct (Nat.eqb_spec (length a) (length b)) as [E|E].
  - intros H _. injection H as <-. now apply map2_length.
  - intros H Ha.
    destruct a as [|x [|x' a]]; destruct b as [|y [|y' b]]; simpl in *;
      try discriminate; try congruence;
      injection H as <-; simpl; now rewrite ?length_map.
Qed.

Lemma sum_abs_ones (x : ndarray) :
  np.sum (np.abs (np.ones_like x)) = INR (length x).
Proof.
  induction x as [|a x IH].
  - reflexivity.
  - change (np.sum (np.abs (np.ones_like (a :: x))))
      with (Rabs 1 + np.sum (np.abs (np.ones_like x))).
    change (length (a :: x)) with (S (length x)).
    rewrite IH, Rabs_R1, S_INR. lra.
Qed.

(** ** The loop of [newton_raphson] *)

Section SolverFacts.

Variable pinv : matrix -> matrix.
Variable f : ndarray -> result ndarray.
Variable df : ndarray -> result fmatrix.
Variable e lam : R.

Local Abbreviation L1 d := (np.sum (np.abs d)).
Local Abbreviation step := (newton_step pinv f df lam).
Local Abbreviation loop := (while_loop pinv f df e lam).
Local Abbreviation iter := (iterate pinv f df lam).

Lemma newton_step_inv (x x' d : ndarray) :
  step x = Ok (x', d) <->
  exists J P r v, df x = Ok J /\ linalg_pinv pinv J = Ok P /\ f x = Ok r /\
                  np.matmul P r = Ok v /\
                  d = np.scalar_mul lam v /\ np.subtract x d = Ok x'.
Proof.
  unfold newton_step. split.
  - intros H.
    apply bind_Ok in H as (J & HJ & H).
    apply bind_Ok in H as (P & HP & H).
    apply bind_Ok in H as (r & Hr & H).
    apply bind_Ok in H as (v & Hv & H).
    apply bind_Ok in H as (y & Hy & H).
    injection H as <- <-. now exists J, P, r, v.
  - intros (J & P & r & v & -> & HP & Hr & Hv & -> & Hx). cbn [bind].
    rewrite HP. cbn [bind]. rewrite Hr. cbn [bind].
    rewrite Hv. cbn [bind]. now rewrite Hx.
Qed.

Lemma iterate_S (j : nat) (x d : ndarray) (s : ndarray * ndarray) :
  iter (S j) (x, d) = Ok s <->
  exists x1 d1, step x = Ok (x1, d1) /\ iter j (x1, d1) = Ok s.
Proof.
  simpl. rewrite bind_Ok. split.
  - intros [[x1 d1] H]. now exists x1, d1.
  - intros (x1 & d1 & H). now exists (x1, d1).
Qed.

(** The loop returns exactly at the first pass count [j] at which the step's
    L1 norm no longer exceeds [e]; the ghost counter advances by [j]. *)
Lemma while_loop_first (fuel : nat) :
  forall (x d : ndarray) (k : nat) (x' d' : ndarray) (k' : nat),
  loop fuel x d k = Ok (x', d', k') <->
  exists j, (j <= fuel)%nat /\ k' = (k + j)%nat /\
            iter j (x, d) = Ok (x', d') /\ L1 d' <= e /\
            forall i, (i < j)%nat ->
                      exists xi di, iter i (x, d) = Ok (xi, di) /\ L1 di > e.
Proof.
  induction fuel as [|fuel IH]; intros x d k x' d' k'.
  - simpl. destruct (Rgt_dec (L1 d) e) as [G|G]; split.
    + discriminate.
    + intros (j & Hj & _ & Hit & Hle & _).
      assert (j = 0%nat) by lia. subst j. simpl in Hit.
      injection Hit as <- <-. lra.
    + intros H. injection H as <- <- <-. exists 0%nat.
      repeat split; auto; try lra; try lia; intros i Hi; lia.
    + intros (j & Hj & -> & Hit & _).
      assert (j = 0%nat) by lia. subst j. simpl in Hit.
      injection Hit as <- <-. now rewrite Nat.add_0_r.
  - cbn [while_loop]. destruct (Rgt_dec (L1 d) e) as [G|G]; split.
    + intros H. apply bind_Ok in H as ([x1 d1] & Hs & H).
      apply IH in H as (j & Hj & -> & Hit & Hle & Hbefore).
      exists (S j). repeat split; try lia; auto.
      * apply iterate_S. now exists x1, d1.
      * intros [|i] Hi.
        -- exists x, d. now split.
        -- destruct (Hbefore i) as (xi & di & Hi1 & Hi2); [lia|].
           exists xi, di. split; auto. apply iterate_S. now exists x1, d1.
    + intros (j & Hj & -> & Hit & Hle & Hbefore).
      destruct j as [|j].
      { simpl in Hit. injection Hit as <- <-. lra. }
      apply iterate_S in Hit as (x1 & d1 & Hs & Hit).
      rewrite Hs. simpl. apply IH. exists j. repeat split; try lia; auto.
      intros i Hi. destruct (Hbefore (S i)) as (xi & di & Hi1 & Hi2); [lia|].
      apply iterate_S in Hi1 as (x1' & d1' & Hs' & Hi1).
      rewrite Hs in Hs'. injection Hs' as <- <-. now exists xi, di.
    + intros H. injection H as <- <- <-. exists 0%nat.
      repeat split; auto; try lra; try lia; intros i Hi; lia.
    + intros (j & Hj & -> & Hit & Hle & Hbefore).
      destruct j as [|j].
      * simpl in Hit. injection Hit as <- <-. now rewrite Nat.add_0_r.
      * destruct (Hbefore 0%nat) as (xi & di & Hi1 & Hi2); [lia|].
        simpl in Hi1. injection Hi1 as <- <-. lra.
Qed.

(** When every pass succeeds with a step above the tolerance, no amount of
    fuel lets the loop return. *)
Lemma while_loop_diverges (fuel : nat) :
  forall (x d : ndarray) (k : nat),
  (forall i, exists xi di, iter i (x, d) = Ok (xi, di) /\ L1 di > e) ->
  loop fuel x d k = Diverge.
Proof.
  induction fuel as [|fuel IH]; intros x d k H.
  - simpl. destruct (H 0%nat) as (xi & di & Hi & G). simpl in Hi.
    injection Hi as <- <-. now destruct (Rgt_dec (L1 d) e).
  - cbn [while_loop]. destruct (H 0%nat) as (xi & di & Hi & G). simpl in Hi.
    injection Hi as <- <-. destruct (Rgt_dec (L1 d) e) as [_|N]; [|lra].
    destruct (H 1%nat) as (x1 & d1 & H1 & _).
    apply iterate_S in H1 as (y & dy & Hs & _). rewrite Hs. simpl.
    apply IH. intros i. destruct (H (S i)) as (xi & di & Hi & Gi).
    apply iterate_S in Hi as (y' & dy' & Hs' & Hi).
    rewrite Hs in Hs'. injection Hs' as <- <-. now exists xi, di.
Qed.

End SolverFacts.

(** ** The pseudorange model: residual and Jacobian *)

Section ModelFacts.

Variables prange X Y Z B : ndarray.
Variable n : nat.
Hypothesis len_prange : length prange = n.
Hypothesis len_X : length X = n.
Hypothesis len_Y : length Y = n.
Hypothesis len_Z : length Z = n.
Hypothesis len_B : length B = n.

Variables x y z cdt : R.

Lemma square_sub_length (c : R) (A : ndarray) :
  length (np.square (np.scalar_sub c A)) = length A.
Proof using. unfold np.square, np.scalar_sub. now rewrite !length_map. Qed.

Lemma squares_length : length (squares X Y Z x y z) = n.
Proof using len_X len_Y len_Z.
  clear len_prange len_B.
  unfold squares.
  rewrite map2_length; rewrite map2_length; rewrite ?square_sub_length; congruence.
Qed.

Lemma ranges_length : length (ranges X Y Z x y z) = n.
Proof using len_X len_Y len_Z.
  clear len_prange len_B.
  unfold ranges, np.sqrt. now rewrite length_map, squares_length.
Qed.

Lemma tilde_prange_value :
  SolvePos.tilde_prange X Y Z x y z = Ok (ranges X Y Z x y z).
Proof using len_X len_Y len_Z.
  clear len_prange len_B.
  unfold SolvePos.tilde_prange, np.add.
  rewrite broadcast_same by (rewrite !square_sub_length; congruence). simpl.
  rewrite broadcast_same; [reflexivity|].
  rewrite map2_length; rewrite !square_sub_length; congruence.
Qed.

Lemma ranges_nth (i : nat) :
  (i < n)%nat -> nth i (ranges X Y Z x y z) 0 = geometric_range X Y Z x y z i.
Proof using len_X len_Y len_Z.
  clear len_prange len_B.
  intros Hi. unfold ranges, np.sqrt, geometric_range.
  rewrite map_nth_lt by (rewrite squares_length; lia). f_equal. unfold squares.
  rewrite map2_nth;
    [| rewrite map2_length; rewrite !square_sub_length; congruence
     | rewrite map2_length; rewrite !square_sub_length; try congruence; lia ].
  rewrite map2_nth;
    [| rewrite !square_sub_length; congruence | rewrite square_sub_length; lia ].
  unfold np.square, np.scalar_sub.
  rewrite !map_nth_lt; rewrite ?length_map; try lia. reflexivity.
Qed.

Lemma modeled_length : length (modeled X Y Z B x y z cdt) = n.
Proof using len_X len_Y len_Z len_B.
  clear len_prange.
  unfold modeled. rewrite map2_length; unfold np.add_scalar;
    rewrite length_map, ranges_length; auto.
Qed.

Lemma f_value :
  SolvePos.f prange X Y Z B [x; y; z; cdt] =
  Ok (map2 Rminus prange (modeled X Y Z B x y z cdt)).
Proof using len_prange len_X len_Y len_Z len_B.
  unfold SolvePos.f. rewrite tilde_prange_value. simpl. unfold np.subtract.
  rewrite broadcast_same
    by (unfold np.add_scalar; rewrite length_map, ranges_length; auto).
  simpl. fold (modeled X Y Z B x y z cdt).
  rewrite broadcast_same by (now rewrite modeled_length).
  reflexivity.
Qed.

Lemma quotient_length (c : R) (A : ndarray) :
  length A = n -> length (quotient X Y Z x y z c A) = n.
Proof using len_X len_Y len_Z.
  clear len_prange len_B.
  intros HA. unfold quotient.
  rewrite map2_length; unfold np.negative, np.scalar_sub; rewrite !length_map; auto.
  now rewrite ranges_length.
Qed.

Lemma quotient_nth (c : R) (A : ndarray) (i : nat) :
  length A = n -> (i < n)%nat ->
  nth i (quotient X Y Z x y z c A) None
  = np.true_divide (- (c - nth i A 0)) (geometric_range X Y Z x y z i).
Proof using len_X len_Y len_Z.
  clear len_prange len_B.
  intros HA Hi. unfold quotient.
  rewrite map2_nth;
    [| unfold np.negative, np.scalar_sub; rewrite !length_map, ranges_length; auto
     | unfold np.negative, np.scalar_sub; rewrite !length_map; lia ].
  unfold np.negative, np.scalar_sub.
  rewrite !map_nth_lt; rewrite ?length_map; try lia.
  now rewrite ranges_nth.
Qed.

Lemma df_value :
  SolvePos.df prange X Y Z B [x; y; z; cdt] =
  Ok (map (fun i => [nth i (quotient X Y Z x y z x X) None;
                     nth i (quotient X Y Z x y z y Y) None;
                     nth i (quotient X Y Z x y z z Z) None;
                     Some (-1)]) (seq 0 n)).
Proof using len_prange len_X len_Y len_Z len_B.
  assert (Hq : forall c A, length A = n ->
            np.divide (np.negative (np.scalar_sub c A)) (ranges X Y Z x y z)
            = Ok (quotient X Y Z x y z c A)).
  { intros c A HA. unfold np.divide. apply broadcast_same.
    unfold np.negative, np.scalar_sub. now rewrite !length_map, ranges_length. }
  assert (Hc : forall c A, length A = n ->
            np.column n (quotient X Y Z x y z c A) = Ok (quotient X Y Z x y z c A)).
  { intros c A HA. unfold np.column.
    now rewrite (quotient_length c A HA), Nat.eqb_refl. }
  unfold SolvePos.df. rewrite tilde_prange_value. simpl. unfold np.subtract.
  rewrite broadcast_same
    by (unfold np.add_scalar; rewrite length_map, ranges_length; auto).
  simpl. fold (modeled X Y Z B x y z cdt).
  rewrite broadcast_same by (now rewrite modeled_length).
  simpl. rewrite len_prange.
  rewrite (Hq x X len_X). simpl. rewrite (Hc x X len_X). simpl.
  rewrite (Hq y Y len_Y). simpl. rewrite (Hc y Y len_Y). simpl.
  rewrite (Hq z Z len_Z). simpl. rewrite (Hc z Z len_Z). reflexivity.
Qed.

End ModelFacts.

(** ** Length of the state along the loop *)

Section LengthFacts.

Variable pinv : matrix -> matrix.
Variable f : ndarray -> result ndarray.
Variable df : ndarray -> result fmatrix.
Variable e lam : R.

Lemma newton_step_length (x x' d : ndarray) :
  newton_step pinv f df lam x = Ok (x', d) ->
  length x <> 1%nat -> length x' = length x.
Proof.
  intros H Hx.
  apply newton_step_inv in H as (J & P & r & v & _ & _ & _ & _ & _ & H).
  now apply broadcast_length in H.
Qed.

Lemma iterate_length (j : nat) :
  forall x d x' d',
  iterate pinv f df lam j (x, d) = Ok (x', d') ->
  length x <> 1%nat -> length x' = length x.
Proof.
  induction j as [|j IH]; intros x d x' d' H Hx.
  - simpl in H. now injection H as <- <-.
  - apply iterate_S in H as (x1 & d1 & Hs & H).
    pose proof (newton_step_length _ _ _ Hs Hx) as E.
    rewrite <- E. apply (IH _ _ _ _ H). congruence.
Qed.

Lemma while_loop_exit (fuel : nat) (x d : ndarray) (k : nat) :
  np.sum (np.abs d) <= e -> while_loop pinv f df e lam fuel x d k = Ok (x, d, k).
Proof.
  intros H. destruct fuel; simpl;
    destruct (Rgt_dec (np.sum (np.abs d)) e); auto; lra.
Qed.

Lemma newton_raphson_length (fuel : nat) (x0 x : ndarray) (nrm : R) :
  newton_raphson pinv f df e lam fuel x0 = Ok (x, nrm) ->
  length x0 <> 1%nat -> length x = length x0.
Proof.
  unfold newton_raphson. intros H Hx.
  apply bind_Ok in H as ([[y d] k] & Hl & H).
  apply bind_Ok in H as (r & _ & H). injection H as <- _.
  apply while_loop_first in Hl as (j & _ & _ & Hit & _).
  now apply iterate_length in Hit.
Qed.

End LengthFacts.

Lemma finite_array_Some (a : ndarray) :
  np.linalg.finite_array (map Some a) = Some a.
Proof.
  induction a as [|x a IH]; [reflexivity|]. simpl. now rewrite IH.
Qed.

Lemma finite_matrix_array (M : matrix) :
  np.linalg.finite_matrix (np.array M) = Some M.
Proof.
  induction M as [|row M IH]; [reflexivity|].
  unfold np.array in *. cbn [map np.linalg.finite_matrix].
  now rewrite finite_array_Some, IH.
Qed.

Lemma linalg_pinv_array (pinv : matrix -> matrix) (M : matrix) :
  linalg_pinv pinv (np.array M) = Ok (pinv M).
Proof. unfold linalg_pinv. now rewrite finite_matrix_array. Qed.

Lemma matmul_I4 (r : ndarray) : length r = 4%nat -> np.matmul I4 r = Ok r.
Proof.
  destruct r as [|a [|b [|c [|d [|? ?]]]]]; try discriminate. intros _.
  unfold np.matmul, np.dot, np.sum. simpl. apply f_equal. vec_ring.
Qed.

Lemma sum_abs_scalar_mul_0 (v : ndarray) :
  np.sum (np.abs (np.scalar_mul 0 v)) = 0.
Proof.
  induction v as [|a v IH]; [reflexivity|].
  change (Rabs (0 * a) + np.sum (np.abs (np.scalar_mul 0 v)) = 0).
  rewrite IH, Rmult_0_l, Rabs_R0. lra.
Qed.

Lemma subtract_scalar_mul_0 (x v : ndarray) :
  length v = length x -> np.subtract x (np.scalar_mul 0 v) = Ok x.
Proof.
  intros H. unfold np.subtract.
  rewrite broadcast_same by (unfold np.scalar_mul; now rewrite length_map).
  apply f_equal. revert v H. induction x as [|a x IH]; intros [|b v] H;
    simpl in *; try discriminate; auto.
  rewrite IH by lia. f_equal. ring.
Qed.

(** A constant residual [r] with the identity as Jacobian: every pass takes
    the same step [lam * r]. *)
Section ConstantResidual.

Variable pinv : matrix -> matrix.
Hypothesis pinv_I4 : pinv I4 = I4.
Variable r : ndarray.
Hypothesis len_r : length r = 4%nat.
Variable e lam : R.

Local Abbreviation fc := (fun _ : ndarray => Ok r).
Local Abbreviation dfc := (fun _ : ndarray => Ok (np.array I4)).

Lemma step_const (x : ndarray) :
  length x = 4%nat ->
  newton_step pinv fc dfc lam x
  = Ok (map2 Rminus x (np.scalar_mul lam r), np.scalar_mul lam r).
Proof.
  intros Hx. unfold newton_step. cbn [bind].
  rewrite linalg_pinv_array, pinv_I4. cbn [bind].
  rewrite matmul_I4 by exact len_r. cbn [bind]. unfold np.subtract.
  rewrite broadcast_same by (unfold np.scalar_mul; rewrite length_map; congruence).
  reflexivity.
Qed.

Lemma iterate_const (i : nat) :
  forall x d, length x = 4%nat ->
  np.sum (np.abs d) > e -> np.sum (np.abs (np.scalar_mul lam r)) > e ->
  exists xi di, iterate pinv fc dfc lam i (x, d) = Ok (xi, di) /\
                np.sum (np.abs di) > e.
Proof.
  induction i as [|i IH]; intros x d Hx Hd Hr.
  - exists x, d. now split.
  - cbn [iterate fst]. rewrite step_const by exact Hx. simpl.
    apply IH; auto.
    rewrite map2_length; unfold np.scalar_mul; rewrite ?length_map; congruence.
Qed.

Lemma newton_raphson_const_diverges (fuel : nat) (x0 : ndarray) :
  length x0 = 4%nat -> e < 4 ->
  np.sum (np.abs (np.scalar_mul lam r)) > e ->
  newton_raphson pinv fc dfc e lam fuel x0 = Diverge.
Proof.
  intros Hx He Hr. unfold newton_raphson.
  rewrite while_loop_diverges; [reflexivity|].
  intros i. apply iterate_const; auto.
  rewrite sum_abs_ones, Hx. simpl. lra.
Qed.

End ConstantResidual.

(** C1: with fewer than four satellites [_solve_pos] returns the
    [np.empty(4)] buffer as it was allocated, so its value is the memory's
    and not a fixed sentinel; this needs no fuel (the loop is not entered) and
    raises nothing. *)
Theorem solve_pos_short_returns_uninitialised
  (pinv : matrix -> matrix) (fuel : nat) (mem : R * R * R * R)
  (prange X Y Z B : ndarray) (e : R) :
  (length prange < 4)%nat ->
  _solve_pos pinv fuel mem prange X Y Z B e = Ok (np.empty4 mem).
Proof.
  intros H. unfold _solve_pos.
  destruct (Nat.ltb_spec (length prange) 4) as [_|G]; [reflexivity|lia].
Qed.

Lemma solve_pos_short_returns_uninitialised_witness :
  (length short_prange < 4)%nat /\
  _solve_pos pinv_isometry 0 (1, 2, 3, 4) short_prange
    short_X short_Y short_Z short_B default_e
  = Ok (np.empty4 (1, 2, 3, 4)).
Proof.
  split; [simpl; lia|].
  apply solve_pos_short_returns_uninitialised. simpl; lia.
Defined.

(** The same three-satellite epoch answered from two memories: the two
    results differ, so the short-epoch result is no function of the input. *)
Lemma solve_pos_short_depends_on_memory :
  _solve_pos pinv_isometry 0 (1, 2, 3, 4) short_prange
    short_X short_Y short_Z short_B default_e
  <>
  _solve_pos pinv_isometry 0 (5, 6, 7, 8) short_prange
    short_X short_Y short_Z short_B default_e.
Proof.
  cbn. intros H. injection H as H _. lra.
Qed.



(** C3: on an epoch whose five arrays have the same length, the residual
    closure returns a vector of that length whose entry [i] is
    [prange[i] - (range_i + cdt - B[i])]; it is a function of the state and
    the epoch's arrays alone. *)
Theorem residual_formula (prange X Y Z B : ndarray) (x y z cdt : R) :
  length X = length prange -> length Y = length prange ->
  length Z = length prange -> length B = length prange ->
  exists r,
    SolvePos.f prange X Y Z B [x; y; z; cdt] = Ok r /\
    length r = length prange /\
    forall i, (i < length prange)%nat ->
      nth i r 0 =
      nth i prange 0 -
      (sqrt ((x - nth i X 0) ^ 2 + (y - nth i Y 0) ^ 2 + (z - nth i Z 0) ^ 2)
       + cdt - nth i B 0).
Proof.
  intros HX HY HZ HB.
  pose proof (modeled_length X Y Z B (length prange) HX HY HZ HB x y z cdt) as Hm.
  pose proof (ranges_length X Y Z (length prange) HX HY HZ x y z) as Hr.
  exists (map2 Rminus prange (modeled X Y Z B x y z cdt)). split; [|split].
  - now apply f_value with (n := length prange).
  - now rewrite map2_length.
  - intros i Hi. rewrite map2_nth by (auto; lia). f_equal.
    unfold modeled.
    rewrite map2_nth by (unfold np.add_scalar; rewrite length_map, Hr; auto).
    unfold np.add_scalar. rewrite map_nth_lt by (rewrite Hr; auto).
    now rewrite (ranges_nth X Y Z (length prange)).
Qed.

Lemma residual_formula_witness :
  length ex_X = length ex_prange /\ length ex_Y = length ex_prange /\
  length ex_Z = length ex_prange /\ length ex_B = length ex_prange /\
  exists r,
    SolvePos.f ex_prange ex_X ex_Y ex_Z ex_B [100; 100; 100; 0] = Ok r /\
    length r = length ex_prange /\
    forall i, (i < length ex_prange)%nat ->
      nth i r 0 =
      nth i ex_prange 0 -
      (sqrt ((100 - nth i ex_X 0) ^ 2 + (100 - nth i ex_Y 0) ^ 2
             + (100 - nth i ex_Z 0) ^ 2)
       + 0 - nth i ex_B 0).
Proof.
  repeat (split; [reflexivity|]).
  apply (residual_formula ex_prange ex_X ex_Y ex_Z ex_B 100 100 100 0);
    reflexivity.
Defined.

Lemma true_divide_nonzero (a r : R) :
  r <> 0 -> np.true_divide a r = Some (a / r).
Proof.
  intros H. unfold np.true_divide. now destruct (Req_dec_T r 0).
Qed.

Lemma true_divide_zero (a r : R) : r = 0 -> np.true_divide a r = None.
Proof.
  intros H. unfold np.true_divide. now destruct (Req_dec_T r 0).
Qed.

Lemma ex_range_first : geometric_range ex_X ex_Y ex_Z 0 0 0 0 <> 0.
Proof.
  unfold geometric_range, ex_X, ex_Y, ex_Z. cbn [nth].
  replace ((0 - 20200000) ^ 2 + (0 - 0) ^ 2 + (0 - 0) ^ 2)
    with (20200000 ^ 2) by ring.
  rewrite sqrt_pow2 by lra. lra.
Qed.

Lemma ex_range_at_satellite :
  geometric_range ex_X ex_Y ex_Z 20200000 0 0 0 = 0.
Proof.
  unfold geometric_range, ex_X, ex_Y, ex_Z. cbn [nth].
  replace ((20200000 - 20200000) ^ 2 + (0 - 0) ^ 2 + (0 - 0) ^ 2)
    with 0 by ring.
  apply sqrt_0.
Qed.

(** C4, as stated, fails where the candidate position is a satellite's: at
    the position of the first satellite of the example epoch the range to it
    is zero, and the first three entries of its row are not numbers, so the
    row is not the row of quotients of the claim. *)
Lemma jacobian_row_at_satellite_not_finite :
  exists J,
    SolvePos.df ex_prange ex_X ex_Y ex_Z ex_B [20200000; 0; 0; 0] = Ok J /\
    nth 0 J [] = [None; None; None; Some (-1)] /\
    nth 0 J [] <>
    [ Some (- (20200000 - nth 0 ex_X 0)
            / geometric_range ex_X ex_Y ex_Z 20200000 0 0 0);
      Some (- (0 - nth 0 ex_Y 0) / geometric_range ex_X ex_Y ex_Z 20200000 0 0 0);
      Some (- (0 - nth 0 ex_Z 0) / geometric_range ex_X ex_Y ex_Z 20200000 0 0 0);
      Some (-1) ].
Proof.
  eexists. split; [|split].
  - apply (df_value ex_prange ex_X ex_Y ex_Z ex_B 4); reflexivity.
  - rewrite map_seq_nth by (simpl; lia).
    rewrite !(quotient_nth ex_X ex_Y ex_Z 4) by (reflexivity || (simpl; lia)).
    now rewrite !true_divide_zero by apply ex_range_at_satellite.
  - rewrite map_seq_nth by (simpl; lia).
    rewrite !(quotient_nth ex_X ex_Y ex_Z 4) by (reflexivity || (simpl; lia)).
    rewrite !true_divide_zero by apply ex_range_at_satellite. discriminate.
Qed.

(** C4, amended: on an epoch whose arrays have the same length the Jacobian
    closure returns one row per satellite, computed from the state it is
    called with.  Where the range to satellite [i] is not zero, row [i] is
    [(-(x-X[i])/range_i, -(y-Y[i])/range_i, -(z-Z[i])/range_i, -1)]; where
    the range is zero, its first three entries are not numbers and the
    fourth is [-1]. *)
Theorem jacobian_rows (prange X Y Z B : ndarray) (x y z cdt : R) :
  length X = length prange -> length Y = length prange ->
  length Z = length prange -> length B = length prange ->
  exists J,
    SolvePos.df prange X Y Z B [x; y; z; cdt] = Ok J /\
    length J = length prange /\
    forall i, (i < length prange)%nat ->
      (geometric_range X Y Z x y z i <> 0 ->
       nth i J [] =
       [ Some (- (x - nth i X 0) / geometric_range X Y Z x y z i);
         Some (- (y - nth i Y 0) / geometric_range X Y Z x y z i);
         Some (- (z - nth i Z 0) / geometric_range X Y Z x y z i);
         Some (-1) ]) /\
      (geometric_range X Y Z x y z i = 0 ->
       nth i J [] = [None; None; None; Some (-1)]).
Proof.
  intros HX HY HZ HB. eexists. split; [|split].
  - now apply df_value with (n := length prange).
  - now rewrite length_map, length_seq.
  - intros i Hi.
    rewrite map_seq_nth by exact Hi.
    rewrite !(quotient_nth X Y Z (length prange)) by auto.
    split; intros Hr.
    + now rewrite !true_divide_nonzero by exact Hr.
    + now rewrite !true_divide_zero by exact Hr.
Qed.

Lemma jacobian_rows_witness :
  length ex_X = length ex_prange /\ length ex_Y = length ex_prange /\
  length ex_Z = length ex_prange /\ length ex_B = length ex_prange /\
  exists J,
    SolvePos.df ex_prange ex_X ex_Y ex_Z ex_B [0; 0; 0; 0] = Ok J /\
    length J = length ex_prange /\
    nth 0 J [] =
    [ Some (- (0 - nth 0 ex_X 0) / geometric_range ex_X ex_Y ex_Z 0 0 0 0);
      Some (- (0 - nth 0 ex_Y 0) / geometric_range ex_X ex_Y ex_Z 0 0 0 0);
      Some (- (0 - nth 0 ex_Z 0) / geometric_range ex_X ex_Y ex_Z 0 0 0 0);
      Some (-1) ].
Proof.
  repeat (split; [reflexivity|]).
  destruct (jacobian_rows ex_prange ex_X ex_Y ex_Z ex_B 0 0 0 0
              eq_refl eq_refl eq_refl eq_refl) as (J & HJ & HL & Hrows).
  exists J. split; [exact HJ|]. split; [exact HL|].
  exact (proj1 (Hrows 0%nat (Nat.lt_0_succ 3)) ex_range_first).
Defined.

(** C5: the claim fails on the code.  The step the loop starts from is all
    ones, not infinity: its L1 norm is the number of components of [x0], and
    for a tolerance at or above that number it does not exceed [e], the loop
    makes no pass, and [newton_raphson] hands back the initial guess with the
    norm of the residual there (or the residual's exception) as if
    converged. *)
Theorem sentinel_misses_large_tolerance
  (pinv : matrix -> matrix) (f : ndarray -> result ndarray)
  (df : ndarray -> result fmatrix) (e lam : R) (fuel : nat) (x0 : ndarray) :
  INR (length x0) <= e ->
  np.sum (np.abs (np.ones_like x0)) = INR (length x0) /\
  ~ np.sum (np.abs (np.ones_like x0)) > e /\
  while_loop pinv f df e lam fuel x0 (np.ones_like x0) 0
  = Ok (x0, np.ones_like x0, 0%nat) /\
  newton_raphson pinv f df e lam fuel x0
  = (r <- f x0 ;; Ok (x0, np.linalg.norm r)).
Proof.
  intros He.
  assert (W : while_loop pinv f df e lam fuel x0 (np.ones_like x0) 0
              = Ok (x0, np.ones_like x0, 0%nat))
    by (apply while_loop_exit; rewrite sum_abs_ones; exact He).
  split; [apply sum_abs_ones|]. split; [rewrite sum_abs_ones; lra|].
  split; [exact W|]. unfold newton_raphson. now rewrite W.
Qed.

Lemma sentinel_misses_large_tolerance_witness :
  INR (length [100; 100; 100; 0]) <= 4 /\
  ~ np.sum (np.abs (np.ones_like [100; 100; 100; 0])) > 4 /\
  while_loop pinv_isometry (SolvePos.f ex_prange ex_X ex_Y ex_Z ex_B)
    (SolvePos.df ex_prange ex_X ex_Y ex_Z ex_B) 4 default_lam 0
    [100; 100; 100; 0] (np.ones_like [100; 100; 100; 0]) 0
  = Ok ([100; 100; 100; 0], np.ones_like [100; 100; 100; 0], 0%nat) /\
  newton_raphson pinv_isometry (SolvePos.f ex_prange ex_X ex_Y ex_Z ex_B)
    (SolvePos.df ex_prange ex_X ex_Y ex_Z ex_B) 4 default_lam 0
    [100; 100; 100; 0]
  = (r <- SolvePos.f ex_prange ex_X ex_Y ex_Z ex_B [100; 100; 100; 0] ;;
     Ok ([100; 100; 100; 0], np.linalg.norm r)).
Proof.
  assert (He : INR (length [100; 100; 100; 0]) <= 4) by (simpl; lra).
  split; [exact He|].
  exact (proj2 (sentinel_misses_large_tolerance pinv_isometry
                  (SolvePos.f ex_prange ex_X ex_Y ex_Z ex_B)
                  (SolvePos.df ex_prange ex_X ex_Y ex_Z ex_B) 4 default_lam 0
                  [100; 100; 100; 0] He)).
Defined.

(** C6: on an epoch of at least four satellites, whatever state the solver
    returns has four components, and [_solve_pos] returns the first three as
    they are and the fourth multiplied by [1e6] and divided by [C]. *)
Theorem solve_pos_rescales_clock_bias_only
  (pinv : matrix -> matrix) (fuel : nat) (mem : R * R * R * R)
  (prange X Y Z B : ndarray) (e : R) (x_fix : ndarray) (res_err : R) :
  (4 <= length prange)%nat ->
  newton_raphson pinv (SolvePos.f prange X Y Z B) (SolvePos.df prange X Y Z B)
    e default_lam fuel [100; 100; 100; 0] = Ok (x_fix, res_err) ->
  exists x y z cdt,
    x_fix = [x; y; z; cdt] /\
    _solve_pos pinv fuel mem prange X Y Z B e
    = Ok [x; y; z; cdt * 1000000 / gpsconsts.C].
Proof.
  intros Hn H.
  assert (L : length x_fix = 4%nat).
  { apply newton_raphson_length in H; [exact H | simpl; lia]. }
  destruct x_fix as [|x [|y [|z [|cdt [|? ?]]]]]; try discriminate.
  exists x, y, z, cdt. split; [reflexivity|].
  unfold _solve_pos.
  destruct (Nat.ltb_spec (length prange) 4) as [G|_]; [lia|].
  rewrite H. reflexivity.
Qed.

(** With a tolerance of [4] the solver returns its initial guess at once,
    which gives a closed run of a four-satellite epoch. *)
Lemma newton_raphson_example_run (fuel : nat) :
  newton_raphson pinv_isometry (SolvePos.f ex_prange ex_X ex_Y ex_Z ex_B)
    (SolvePos.df ex_prange ex_X ex_Y ex_Z ex_B) 4 default_lam fuel
    [100; 100; 100; 0]
  = Ok ([100; 100; 100; 0],
        np.linalg.norm (map2 Rminus ex_prange (modeled ex_X ex_Y ex_Z ex_B 100 100 100 0))).
Proof.
  unfold newton_raphson. rewrite while_loop_exit.
  - cbn [bind]. rewrite (f_value ex_prange ex_X ex_Y ex_Z ex_B 4) by reflexivity.
    reflexivity.
  - rewrite sum_abs_ones. simpl. lra.
Qed.

(** C7, as stated, fails for a negative tolerance: with [lam = 0] every step
    is zero, its L1 norm [0] still exceeds [e = -1], and the loop never
    returns although the residual and the Jacobian evaluate without error. *)
Lemma newton_raphson_lam0_negative_tolerance :
  (fun _ : ndarray => Ok [1; 1; 1; 1]) [100; 100; 100; 0] = Ok [1; 1; 1; 1] /\
  (fun _ : ndarray => Ok (np.array I4)) [100; 100; 100; 0] = Ok (np.array I4) /\
  forall fuel,
    newton_raphson pinv_isometry (fun _ => Ok [1; 1; 1; 1]) (fun _ => Ok (np.array I4))
      (-1) 0 fuel [100; 100; 100; 0] = Diverge.
Proof.
  split; [reflexivity|]. split; [reflexivity|]. intros fuel.
  apply newton_raphson_const_diverges; try reflexivity; try lra.
  rewrite sum_abs_scalar_mul_0. lra.
Qed.

(** C7, amended: for a tolerance that is not negative, when the Jacobian and
    the residual evaluate at [x0] and the Newton direction there is defined
    and has the shape of [x0], [newton_raphson] with [lam = 0] returns [x0]
    itself and the L2 norm of the residual at [x0], as soon as it is allowed
    one pass. *)
Theorem newton_raphson_lam0_fixed
  (pinv : matrix -> matrix) (f : ndarray -> result ndarray)
  (df : ndarray -> result fmatrix) (e : R) (fuel : nat)
  (x0 : ndarray) (J : fmatrix) (P : matrix) (r v : ndarray) :
  0 <= e ->
  df x0 = Ok J -> linalg_pinv pinv J = Ok P -> f x0 = Ok r ->
  np.matmul P r = Ok v -> length v = length x0 ->
  newton_raphson pinv f df e 0 (S fuel) x0 = Ok (x0, np.linalg.norm r).
Proof.
  intros He HJ HP Hr Hv Hlen. unfold newton_raphson. cbn [while_loop].
  destruct (Rgt_dec _ e) as [_|_].
  - assert (Hs : newton_step pinv f df 0 x0 = Ok (x0, np.scalar_mul 0 v)).
    { apply newton_step_inv. exists J, P, r, v. repeat split; auto.
      now apply subtract_scalar_mul_0. }
    rewrite Hs. cbn [bind].
    rewrite while_loop_exit by (rewrite sum_abs_scalar_mul_0; exact He).
    cbn [bind]. now rewrite Hr.
  - cbn [bind]. now rewrite Hr.
Qed.

Lemma newton_raphson_lam0_fixed_witness :
  0 <= default_e /\
  newton_raphson pinv_isometry (fun _ => Ok [3; 0; 4; 0]) (fun _ => Ok (np.array I4))
    default_e 0 1 [100; 100; 100; 0]
  = Ok ([100; 100; 100; 0], np.linalg.norm [3; 0; 4; 0]).
Proof.
  split; [unfold default_e; lra|].
  refine (newton_raphson_lam0_fixed pinv_isometry (fun _ => Ok [3; 0; 4; 0])
            (fun _ => Ok (np.array I4)) default_e 0 [100; 100; 100; 0]
            (np.array I4) _ [3; 0; 4; 0] _ _ eq_refl eq_refl eq_refl eq_refl eq_refl).
  unfold default_e; lra.
Defined.

(** C8: the loop is not bounded.  With the constant residual [(1,1,1,1)], the
    identity Jacobian (whose pseudo-inverse is the identity) and the default
    [e] and [lam], every pass succeeds with a step of L1 norm [4], so no
    amount of fuel makes [newton_raphson] return. *)
Theorem newton_raphson_not_total (pinv : matrix -> matrix) :
  pinv I4 = I4 ->
  exists (f : ndarray -> result ndarray) (df : ndarray -> result fmatrix)
         (x0 : ndarray),
    (forall x, exists r J, f x = Ok r /\ df x = Ok J) /\
    (forall i, exists xi di,
        iterate pinv f df default_lam i (x0, np.ones_like x0) = Ok (xi, di) /\
        np.sum (np.abs di) > default_e) /\
    forall fuel, newton_raphson pinv f df default_e default_lam fuel x0 = Diverge.
Proof.
  intros HI.
  assert (L : np.sum (np.abs (np.scalar_mul default_lam [1; 1; 1; 1])) > default_e).
  { unfold np.sum, np.abs, np.scalar_mul, default_lam, default_e. simpl.
    rewrite Rmult_1_r, Rabs_R1. lra. }
  exists (fun _ => Ok [1; 1; 1; 1]), (fun _ => Ok (np.array I4)), [100; 100; 100; 0].
  split; [|split].
  - intros x. now exists [1; 1; 1; 1], (np.array I4).
  - intros i. apply iterate_const; auto.
    rewrite sum_abs_ones. unfold default_e. simpl. lra.
  - intros fuel. apply newton_raphson_const_diverges; auto.
    unfold default_e. lra.
Qed.

Lemma newton_raphson_not_total_witness :
  pinv_isometry I4 = I4 /\
  exists (f : ndarray -> result ndarray) (df : ndarray -> result fmatrix)
         (x0 : ndarray),
    (forall x, exists r J, f x = Ok r /\ df x = Ok J) /\
    (forall i, exists xi di,
        iterate pinv_isometry f df default_lam i (x0, np.ones_like x0) = Ok (xi, di) /\
        np.sum (np.abs di) > default_e) /\
    forall fuel,
      newton_raphson pinv_isometry f df default_e default_lam fuel x0 = Diverge.
Proof.
  split; [reflexivity|].
  apply (newton_raphson_not_total pinv_isometry). reflexivity.
Defined.

(** C9: on an epoch of at least four satellites the Newton iteration of
    [_solve_pos] starts from the state [(100, 100, 100, 0)], whatever the
    measurements are.  [_solve_pos] returns [v] exactly when the passes of
    the loop body taken from that state, with the default damping, first
    reach a step of L1 norm at most [e] at some state [(x, y, z, cdt)] within
    the fuel, the residual evaluates there, and [v] is that state with its
    last component rescaled.  The result does not depend on the memory the
    short branch would have returned. *)
Theorem solve_pos_initial_guess
  (pinv : matrix -> matrix) (fuel : nat) (mem mem' : R * R * R * R)
  (prange X Y Z B : ndarray) (e : R) (v : ndarray) :
  (4 <= length prange)%nat ->
  (_solve_pos pinv fuel mem prange X Y Z B e = Ok v <->
   exists j x y z cdt d r,
     (j <= fuel)%nat /\
     iterate pinv (SolvePos.f prange X Y Z B) (SolvePos.df prange X Y Z B)
       default_lam j ([100; 100; 100; 0], np.ones_like [100; 100; 100; 0])
     = Ok ([x; y; z; cdt], d) /\
     np.sum (np.abs d) <= e /\
     (forall i, (i < j)%nat ->
        exists xi di,
          iterate pinv (SolvePos.f prange X Y Z B) (SolvePos.df prange X Y Z B)
            default_lam i ([100; 100; 100; 0], np.ones_like [100; 100; 100; 0])
          = Ok (xi, di) /\
          np.sum (np.abs di) > e) /\
     SolvePos.f prange X Y Z B [x; y; z; cdt] = Ok r /\
     v = [x; y; z; cdt * 1000000 / gpsconsts.C]) /\
  _solve_pos pinv fuel mem prange X Y Z B e
  = _solve_pos pinv fuel mem' prange X Y Z B e.
Proof.
  intros Hn. unfold _solve_pos.
  destruct (Nat.ltb_spec (length prange) 4) as [G|_]; [lia|].
  split; [|reflexivity]. unfold newton_raphson. split.
  - intros H. apply bind_Ok in H as ([x_fix res_err] & Hnr & H).
    apply bind_Ok in Hnr as ([[x_fix' d] k] & Hl & Hnr).
    apply bind_Ok in Hnr as (r & Hr & Hnr). injection Hnr as <- _.
    apply while_loop_first in Hl as (j & Hj & _ & Hit & Hle & Hb).
    pose proof (iterate_length _ _ _ _ _ _ _ _ _ Hit) as L.
    destruct x_fix' as [|x [|y [|z [|cdt [|? ?]]]]];
      try (simpl in L; specialize (L ltac:(lia)); discriminate).
    simpl in H. injection H as <-.
    now exists j, x, y, z, cdt, d, r.
  - intros (j & x & y & z & cdt & d & r & Hj & Hit & Hle & Hb & Hr & ->).
    assert (Hl : while_loop pinv (SolvePos.f prange X Y Z B)
                   (SolvePos.df prange X Y Z B) e default_lam fuel
                   [100; 100; 100; 0] (np.ones_like [100; 100; 100; 0]) 0
                 = Ok ([x; y; z; cdt], d, (0 + j)%nat)).
    { apply while_loop_first. now exists j. }
    rewrite Hl. cbn [bind]. rewrite Hr. reflexivity.
Qed.

(** C10: whenever [_solve_pos] returns, on arrays of any lengths and with
    any tolerance, the array returned has four components. *)
Theorem solve_pos_length_4
  (pinv : matrix -> matrix) (fuel : nat) (mem : R * R * R * R)
  (prange X Y Z B : ndarray) (e : R) (v : ndarray) :
  _solve_pos pinv fuel mem prange X Y Z B e = Ok v -> length v = 4%nat.
Proof.
  unfold _solve_pos.
  destruct (Nat.ltb_spec (length prange) 4) as [_|_].
  - intros H. injection H as <-. destruct mem as [[[m0 m1] m2] m3]. reflexivity.
  - intros H. apply bind_Ok in H as ([x_fix res_err] & Hnr & H).
    apply newton_raphson_length in Hnr; [|simpl; lia].
    destruct x_fix as [|x [|y [|z [|cdt [|? ?]]]]]; try discriminate.
    simpl in H. injection H as <-. reflexivity.
Qed.

Lemma solve_pos_length_4_witness :
  _solve_pos pinv_isometry 0 (1, 2, 3, 4) ex_prange ex_X ex_Y ex_Z ex_B 4
  = Ok [100; 100; 100; 0 * 1000000 / gpsconsts.C] /\
  length [100; 100; 100; 0 * 1000000 / gpsconsts.C] = 4%nat.
Proof.
  assert (H : _solve_pos pinv_isometry 0 (1, 2, 3, 4) ex_prange ex_X ex_Y ex_Z ex_B 4
              = Ok [100; 100; 100; 0 * 1000000 / gpsconsts.C]).
  { unfold _solve_pos. cbn [length ex_prange Nat.ltb Nat.leb].
    rewrite newton_raphson_example_run. reflexivity. }
  split; [exact H|].
  exact (solve_pos_length_4 _ _ _ _ _ _ _ _ _ _ H).
Defined.

(** ** Further properties of the pseudorange model *)

Lemma modeled_nth (X Y Z B : ndarray) (n : nat) (x y z cdt : R) (i : nat) :
  length X = n -> length Y = n -> length Z = n -> length B = n -> (i < n)%nat ->
  nth i (modeled X Y Z B x y z cdt) 0
  = geometric_range X Y Z x y z i + cdt - nth i B 0.
Proof.
  intros HX HY HZ HB Hi.
  pose proof (ranges_length X Y Z n HX HY HZ x y z) as Hr.
  unfold modeled.
  rewrite map2_nth by (unfold np.add_scalar; rewrite length_map, Hr; auto).
  unfold np.add_scalar. rewrite map_nth_lt by (rewrite Hr; auto).
  now rewrite (ranges_nth X Y Z n).
Qed.

Lemma residual_at_value (prange X Y Z B : ndarray) (x y z cdt : R) (i : nat) :
  length X = length prange -> length Y = length prange ->
  length Z = length prange -> length B = length prange ->
  (i < length prange)%nat ->
  residual_at prange X Y Z B i x y z cdt
  = nth i prange 0 - (geometric_range X Y Z x y z i + cdt - nth i B 0).
Proof.
  intros HX HY HZ HB Hi. unfold residual_at.
  rewrite (f_value prange X Y Z B (length prange)) by auto.
  rewrite map2_nth;
    [| now rewrite (modeled_length X Y Z B (length prange)) | exact Hi ].
  now rewrite (modeled_nth X Y Z B (length prange)).
Qed.

Lemma df_row (prange X Y Z B : ndarray) (x y z cdt : R) (J : fmatrix) (i : nat) :
  length X = length prange -> length Y = length prange ->
  length Z = length prange -> length B = length prange ->
  SolvePos.df prange X Y Z B [x; y; z; cdt] = Ok J ->
  (i < length prange)%nat ->
  geometric_range X Y Z x y z i <> 0 ->
  nth i J [] =
  [ Some (- (x - nth i X 0) / geometric_range X Y Z x y z i);
    Some (- (y - nth i Y 0) / geometric_range X Y Z x y z i);
    Some (- (z - nth i Z 0) / geometric_range X Y Z x y z i);
    Some (-1) ].
Proof.
  intros HX HY HZ HB HJ Hi Hr.
  rewrite (df_value prange X Y Z B (length prange)) in HJ by auto.
  injection HJ as <-. rewrite map_seq_nth by exact Hi.
  rewrite !(quotient_nth X Y Z (length prange)) by auto.
  now rewrite !true_divide_nonzero by exact Hr.
Qed.

Lemma geometric_range_pow2 (X Y Z : ndarray) (x y z : R) (i : nat) :
  geometric_range X Y Z x y z i ^ 2
  = (x - nth i X 0) ^ 2 + (y - nth i Y 0) ^ 2 + (z - nth i Z 0) ^ 2.
Proof.
  unfold geometric_range. apply pow2_sqrt.
  assert (H : forall a, 0 <= a ^ 2) by (intros a; apply pow2_ge_0).
  pose proof (H (x - nth i X 0)). pose proof (H (y - nth i Y 0)).
  pose proof (H (z - nth i Z 0)). lra.
Qed.

(** X1: the first three entries of every Jacobian row are the components of
    a unit vector (the direction from the satellite to the candidate
    position, negated), wherever the range to that satellite is not zero. *)
Theorem jacobian_row_unit_direction
  (prange X Y Z B : ndarray) (x y z cdt : R) (J : fmatrix) (i : nat) :
  length X = length prange -> length Y = length prange ->
  length Z = length prange -> length B = length prange ->
  SolvePos.df prange X Y Z B [x; y; z; cdt] = Ok J ->
  (i < length prange)%nat ->
  geometric_range X Y Z x y z i <> 0 ->
  exists a b c,
    nth i J [] = [Some a; Some b; Some c; Some (-1)] /\
    a ^ 2 + b ^ 2 + c ^ 2 = 1.
Proof.
  intros HX HY HZ HB HJ Hi Hr.
  rewrite (df_row prange X Y Z B x y z cdt J i HX HY HZ HB HJ Hi Hr).
  eexists _, _, _. split; [reflexivity|].
  pose proof (geometric_range_pow2 X Y Z x y z i) as H2.
  set (r := geometric_range X Y Z x y z i) in *.
  replace ((- (x - nth i X 0) / r) ^ 2 + (- (y - nth i Y 0) / r) ^ 2
           + (- (z - nth i Z 0) / r) ^ 2)
    with (((x - nth i X 0) ^ 2 + (y - nth i Y 0) ^ 2 + (z - nth i Z 0) ^ 2)
          / r ^ 2) by (field; exact Hr).
  rewrite <- H2. field. exact Hr.
Qed.

Lemma jacobian_row_unit_direction_witness :
  exists J a b c,
    SolvePos.df ex_prange ex_X ex_Y ex_Z ex_B [0; 0; 0; 0] = Ok J /\
    nth 0 J [] = [Some a; Some b; Some c; Some (-1)] /\
    a ^ 2 + b ^ 2 + c ^ 2 = 1.
Proof.
  pose proof (df_value ex_prange ex_X ex_Y ex_Z ex_B 4 eq_refl eq_refl eq_refl
                eq_refl eq_refl 0 0 0 0) as HJ.
  assert (Hr : geometric_range ex_X ex_Y ex_Z 0 0 0 0 <> 0).
  { unfold geometric_range, ex_X, ex_Y, ex_Z. cbn [nth].
    replace ((0 - 20200000) ^ 2 + (0 - 0) ^ 2 + (0 - 0) ^ 2)
      with (20200000 ^ 2) by ring.
    rewrite sqrt_pow2 by lra. lra. }
  destruct (jacobian_row_unit_direction ex_prange ex_X ex_Y ex_Z ex_B 0 0 0 0
              _ 0%nat eq_refl eq_refl eq_refl eq_refl HJ
              (Nat.lt_0_succ 3) Hr) as (a & b & c & Hrow & Hu).
  eexists _, a, b, c. split; [exact HJ|]. split; [exact Hrow | exact Hu].
Defined.

(** X2: a state is a root of the residual exactly when every pseudorange is
    the range to its satellite plus the clock term less the correction. *)
Theorem residual_zero_iff_consistent
  (prange X Y Z B : ndarray) (x y z cdt : R) :
  length X = length prange -> length Y = length prange ->
  length Z = length prange -> length B = length prange ->
  (SolvePos.f prange X Y Z B [x; y; z; cdt] = Ok (repeat 0 (length prange)) <->
   forall i, (i < length prange)%nat ->
     nth i prange 0 = geometric_range X Y Z x y z i + cdt - nth i B 0).
Proof.
  intros HX HY HZ HB.
  pose proof (modeled_length X Y Z B (length prange) HX HY HZ HB x y z cdt) as Hm.
  rewrite (f_value prange X Y Z B (length prange)) by auto.
  assert (E : forall i, (i < length prange)%nat ->
            nth i (map2 Rminus prange (modeled X Y Z B x y z cdt)) 0
            = nth i prange 0 - (geometric_range X Y Z x y z i + cdt - nth i B 0)).
  { intros i Hi. rewrite map2_nth by (auto; lia).
    now rewrite (modeled_nth X Y Z B (length prange)). }
  split.
  - intros H i Hi. injection H as H.
    pose proof (E i Hi) as Ei. rewrite H in Ei.
    rewrite nth_repeat in Ei. lra.
  - intros H. f_equal.
    apply nth_ext with (d := 0) (d' := 0).
    + rewrite repeat_length. now apply map2_length.
    + intros i Hi. rewrite map2_length in Hi by auto.
      rewrite (E i Hi), nth_repeat, (H i Hi). lra.
Qed.

Lemma residual_zero_iff_consistent_witness :
  SolvePos.f [20200000; 20200000; 20200000; 20200000]
    [20200000; -20200000; 0; 0] [0; 0; 20200000; -20200000] [0; 0; 0; 0]
    [0; 0; 0; 0] [0; 0; 0; 0]
  = Ok (repeat 0 4).
Proof.
  apply (residual_zero_iff_consistent [20200000; 20200000; 20200000; 20200000]
           [20200000; -20200000; 0; 0] [0; 0; 20200000; -20200000] [0; 0; 0; 0]
           [0; 0; 0; 0] 0 0 0 0 eq_refl eq_refl eq_refl eq_refl).
  intros i Hi. unfold geometric_range.
  assert (S : sqrt (20200000 ^ 2) = 20200000) by (apply sqrt_pow2; lra).
  destruct i as [|[|[|[|i]]]]; cbn [nth]; [| | | |simpl in Hi; lia].
  - replace ((0 - 20200000) ^ 2 + (0 - 0) ^ 2 + (0 - 0) ^ 2)
      with (20200000 ^ 2) by ring. rewrite S. lra.
  - replace ((0 - -20200000) ^ 2 + (0 - 0) ^ 2 + (0 - 0) ^ 2)
      with (20200000 ^ 2) by ring. rewrite S. lra.
  - replace ((0 - 0) ^ 2 + (0 - 20200000) ^ 2 + (0 - 0) ^ 2)
      with (20200000 ^ 2) by ring. rewrite S. lra.
  - replace ((0 - 0) ^ 2 + (0 - -20200000) ^ 2 + (0 - 0) ^ 2)
      with (20200000 ^ 2) by ring. rewrite S. lra.
Defined.

(** X3: the Jacobian is a function of the geometry alone: on arrays of equal
    lengths it is the same for any pseudoranges, corrections and clock term,
    so the [_prange] and [delta_prange] that [df] computes do not reach its
    result. *)
Theorem jacobian_depends_on_geometry_only
  (prange prange' X Y Z B B' : ndarray) (x y z cdt cdt' : R) :
  length X = length prange -> length Y = length prange ->
  length Z = length prange -> length B = length prange ->
  length prange' = length prange -> length B' = length prange ->
  SolvePos.df prange X Y Z B [x; y; z; cdt]
  = SolvePos.df prange' X Y Z B' [x; y; z; cdt'].
Proof.
  intros HX HY HZ HB Hp HB'.
  rewrite (df_value prange X Y Z B (length prange)) by auto.
  rewrite (df_value prange' X Y Z B' (length prange)) by auto.
  reflexivity.
Qed.

Lemma jacobian_depends_on_geometry_only_witness :
  SolvePos.df ex_prange ex_X ex_Y ex_Z ex_B [100; 100; 100; 0]
  = SolvePos.df [1; 2; 3; 4] ex_X ex_Y ex_Z [5; 6; 7; 8] [100; 100; 100; 9].
Proof.
  apply (jacobian_depends_on_geometry_only ex_prange [1; 2; 3; 4] ex_X ex_Y ex_Z
           ex_B [5; 6; 7; 8] 100 100 100 0 9); reflexivity.
Defined.

(** ** The Jacobian closure against the derivative of the residual *)

Lemma deriv_quadratic (a c x : R) :
  derivable_pt_lim (fun t => (t - a) ^ 2 + c) x (2 * (x - a)).
Proof.
  intros eps Heps. exists (mkposreal eps Heps). intros h Hh Hlt. simpl in Hlt.
  replace (((x + h - a) ^ 2 + c - ((x - a) ^ 2 + c)) / h - 2 * (x - a))
    with h by (field; exact Hh).
  exact Hlt.
Qed.

Lemma sqrt_pos_arg (s : R) : sqrt s <> 0 -> 0 < s.
Proof.
  intros H. destruct (Rle_or_lt s 0) as [L|L]; [|exact L].
  exfalso. apply H. now apply sqrt_neg_0.
Qed.

Lemma deriv_range (a c x : R) :
  0 < (x - a) ^ 2 + c ->
  derivable_pt_lim (fun t => sqrt ((t - a) ^ 2 + c)) x
    ((x - a) / sqrt ((x - a) ^ 2 + c)).
Proof.
  intros H.
  pose proof (derivable_pt_lim_comp (fun t => (t - a) ^ 2 + c) sqrt x _ _
                (deriv_quadratic a c x) (derivable_pt_lim_sqrt _ H)) as D.
  unfold comp in D.
  replace ((x - a) / sqrt ((x - a) ^ 2 + c))
    with (/ (2 * sqrt ((x - a) ^ 2 + c)) * (2 * (x - a))); [exact D|].
  field. apply Rgt_not_eq. now apply sqrt_lt_R0.
Qed.

Lemma deriv_residual (p a c d b x : R) :
  0 < (x - a) ^ 2 + c ->
  derivable_pt_lim (fun t => p - (sqrt ((t - a) ^ 2 + c) + d - b)) x
    (- (x - a) / sqrt ((x - a) ^ 2 + c)).
Proof.
  intros H eps Heps.
  destruct (deriv_range a c x H eps Heps) as [delta Hd].
  exists delta. intros h Hh Hlt. specialize (Hd h Hh Hlt).
  assert (Hs : sqrt ((x - a) ^ 2 + c) <> 0)
    by (apply Rgt_not_eq; now apply sqrt_lt_R0).
  replace ((p - (sqrt ((x + h - a) ^ 2 + c) + d - b)
            - (p - (sqrt ((x - a) ^ 2 + c) + d - b))) / h
           - - (x - a) / sqrt ((x - a) ^ 2 + c))
    with (- ((sqrt ((x + h - a) ^ 2 + c) - sqrt ((x - a) ^ 2 + c)) / h
             - (x - a) / sqrt ((x - a) ^ 2 + c)))
    by (field; split; assumption).
  now rewrite Rabs_Ropp.
Qed.

Lemma deriv_clock (p r b x : R) :
  derivable_pt_lim (fun t => p - (r + t - b)) x (-1).
Proof.
  intros eps Heps. exists (mkposreal eps Heps). intros h Hh _.
  replace ((p - (r + (x + h) - b) - (p - (r + x - b))) / h - -1)
    with 0 by (field; exact Hh).
  now rewrite Rabs_R0.
Qed.

(** X4: the matrix returned by [df] is the Jacobian of [f]: wherever the
    range to satellite [i] is not zero, entry [i] of the residual, taken as a
    function of one state component with the others fixed, has as derivative
    the matching entry of row [i]. *)
Theorem jacobian_is_derivative_of_residual
  (prange X Y Z B : ndarray) (x y z cdt : R) (J : fmatrix) (i : nat) :
  length X = length prange -> length Y = length prange ->
  length Z = length prange -> length B = length prange ->
  SolvePos.df prange X Y Z B [x; y; z; cdt] = Ok J ->
  (i < length prange)%nat ->
  geometric_range X Y Z x y z i <> 0 ->
  exists jx jy jz jc,
    nth i J [] = [Some jx; Some jy; Some jz; Some jc] /\
    derivable_pt_lim (fun t => residual_at prange X Y Z B i t y z cdt) x jx /\
    derivable_pt_lim (fun t => residual_at prange X Y Z B i x t z cdt) y jy /\
    derivable_pt_lim (fun t => residual_at prange X Y Z B i x y t cdt) z jz /\
    derivable_pt_lim (fun t => residual_at prange X Y Z B i x y z t) cdt jc.
Proof.
  intros HX HY HZ HB HJ Hi Hr.
  rewrite (df_row prange X Y Z B x y z cdt J i HX HY HZ HB HJ Hi Hr).
  eexists _, _, _, _. split; [reflexivity|].
  apply sqrt_pos_arg in Hr as Hpos.
  unfold geometric_range.
  set (a := nth i X 0) in *. set (b := nth i Y 0) in *. set (c := nth i Z 0) in *.
  repeat split.
  - apply derivable_pt_lim_ext
      with (f := fun t => nth i prange 0
                 - (sqrt ((t - a) ^ 2 + ((y - b) ^ 2 + (z - c) ^ 2))
                    + cdt - nth i B 0)).
    + intros t. rewrite residual_at_value by auto. unfold geometric_range.
      fold a b c. now rewrite Rplus_assoc.
    + rewrite Rplus_assoc. apply deriv_residual. now rewrite <- Rplus_assoc.
  - apply derivable_pt_lim_ext
      with (f := fun t => nth i prange 0
                 - (sqrt ((t - b) ^ 2 + ((x - a) ^ 2 + (z - c) ^ 2))
                    + cdt - nth i B 0)).
    + intros t. rewrite residual_at_value by auto. unfold geometric_range.
      fold a b c. f_equal. f_equal. f_equal. f_equal. ring.
    + replace ((x - a) ^ 2 + (y - b) ^ 2 + (z - c) ^ 2)
        with ((y - b) ^ 2 + ((x - a) ^ 2 + (z - c) ^ 2)) in * by ring.
      now apply deriv_residual.
  - apply derivable_pt_lim_ext
      with (f := fun t => nth i prange 0
                 - (sqrt ((t - c) ^ 2 + ((x - a) ^ 2 + (y - b) ^ 2))
                    + cdt - nth i B 0)).
    + intros t. rewrite residual_at_value by auto. unfold geometric_range.
      fold a b c. f_equal. f_equal. f_equal. f_equal. ring.
    + replace ((x - a) ^ 2 + (y - b) ^ 2 + (z - c) ^ 2)
        with ((z - c) ^ 2 + ((x - a) ^ 2 + (y - b) ^ 2)) in * by ring.
      now apply deriv_residual.
  - apply derivable_pt_lim_ext
      with (f := fun t => nth i prange 0
                 - (geometric_range X Y Z x y z i + t - nth i B 0)).
    + intros t. now rewrite residual_at_value by auto.
    + apply deriv_clock.
Qed.

Lemma jacobian_is_derivative_of_residual_witness :
  exists J jx jy jz jc,
    SolvePos.df ex_prange ex_X ex_Y ex_Z ex_B [0; 0; 0; 0] = Ok J /\
    nth 0 J [] = [Some jx; Some jy; Some jz; Some jc] /\
    derivable_pt_lim (fun t => residual_at ex_prange ex_X ex_Y ex_Z ex_B 0 t 0 0 0) 0
      jx /\
    derivable_pt_lim (fun t => residual_at ex_prange ex_X ex_Y ex_Z ex_B 0 0 t 0 0) 0
      jy /\
    derivable_pt_lim (fun t => residual_at ex_prange ex_X ex_Y ex_Z ex_B 0 0 0 t 0) 0
      jz /\
    derivable_pt_lim (fun t => residual_at ex_prange ex_X ex_Y ex_Z ex_B 0 0 0 0 t) 0
      jc.
Proof.
  pose proof (df_value ex_prange ex_X ex_Y ex_Z ex_B 4 eq_refl eq_refl eq_refl
                eq_refl eq_refl 0 0 0 0) as HJ.
  destruct (jacobian_is_derivative_of_residual ex_prange ex_X ex_Y ex_Z ex_B
              0 0 0 0 _ 0%nat eq_refl eq_refl eq_refl eq_refl HJ
              (Nat.lt_0_succ 3) ex_range_first)
    as (jx & jy & jz & jc & H).
  eexists _, jx, jy, jz, jc. split; [exact HJ | exact H].
Defined.

(** ** Further properties of the solver *)

Lemma all_zero_repeat (m : nat) : all_zero (repeat 0 m).
Proof. induction m; simpl; constructor; auto. Qed.

Lemma dot_zero (row v : ndarray) : all_zero v -> np.dot row v = 0.
Proof.
  intros H. revert row. induction H as [|a v Ha _ IH]; intros [|b row];
    try reflexivity.
  unfold np.dot in *. cbn [map2 np.sum fold_right].
  change (fold_right Rplus 0 (map2 Rmult row v)) with (np.sum (map2 Rmult row v)).
  rewrite IH, Ha. ring.
Qed.

Lemma matmul_zero (P : matrix) (r v : ndarray) :
  all_zero r -> np.matmul P r = Ok v -> all_zero v.
Proof.
  intros Hr. unfold np.matmul.
  destruct (forallb _ P); [|discriminate]. intros H. injection H as <-.
  induction P as [|row P IH]; simpl; constructor; auto.
  now apply dot_zero.
Qed.

Lemma scalar_mul_zero (lam : R) (v : ndarray) :
  all_zero v -> all_zero (np.scalar_mul lam v).
Proof.
  induction 1 as [|a v Ha _ IH]; simpl; constructor; auto.
  rewrite Ha. ring.
Qed.

Lemma sum_abs_zero (d : ndarray) : all_zero d -> np.sum (np.abs d) = 0.
Proof.
  induction 1 as [|a v Ha _ IH]; [reflexivity|].
  change (Rabs a + np.sum (np.abs v) = 0). rewrite IH, Ha, Rabs_R0. ring.
Qed.

Lemma subtract_zero (x d : ndarray) :
  length d = length x -> all_zero d -> np.subtract x d = Ok x.
Proof.
  intros H Hd. unfold np.subtract. rewrite broadcast_same by auto.
  apply f_equal. revert x H. induction Hd as [|a v Ha _ IH]; intros [|b x] H;
    simpl in *; try discriminate; auto.
  rewrite IH by lia. rewrite Ha. f_equal. ring.
Qed.

Lemma norm_zero (r : ndarray) : all_zero r -> np.linalg.norm r = 0.
Proof.
  intros H. unfold np.linalg.norm.
  replace (np.sum (np.square r)) with 0; [apply sqrt_0|].
  induction H as [|a v Ha _ IH]; [reflexivity|].
  change (0 = a ^ 2 + np.sum (np.square v)). rewrite <- IH, Ha. ring.
Qed.

(** X5: a root is a fixed point.  When the residual at [x0] is the zero
    vector, the Jacobian and its pseudo-inverse evaluate and the shapes
    conform, [newton_raphson] with any damping and any tolerance that is not
    negative returns [x0] itself with residual norm [0], after at most one
    pass. *)
Theorem newton_raphson_root_fixed
  (pinv : matrix -> matrix) (f : ndarray -> result ndarray)
  (df : ndarray -> result fmatrix) (e lam : R) (fuel : nat)
  (x0 : ndarray) (J : fmatrix) (P : matrix) (r v : ndarray) :
  0 <= e ->
  df x0 = Ok J -> linalg_pinv pinv J = Ok P -> f x0 = Ok r -> all_zero r ->
  np.matmul P r = Ok v -> length v = length x0 ->
  newton_raphson pinv f df e lam (S fuel) x0 = Ok (x0, 0).
Proof.
  intros He HJ HP Hr Hz Hv Hlen.
  assert (Hd : all_zero (np.scalar_mul lam v))
    by (apply scalar_mul_zero; now apply (matmul_zero P r)).
  unfold newton_raphson. cbn [while_loop].
  destruct (Rgt_dec _ e) as [_|_].
  - assert (Hs : newton_step pinv f df lam x0 = Ok (x0, np.scalar_mul lam v)).
    { apply newton_step_inv. exists J, P, r, v. repeat split; auto.
      apply subtract_zero; auto. unfold np.scalar_mul. now rewrite length_map. }
    rewrite Hs. cbn [bind].
    rewrite while_loop_exit by (rewrite sum_abs_zero; auto).
    cbn [bind]. rewrite Hr. cbn [bind]. now rewrite norm_zero.
  - cbn [bind]. rewrite Hr. cbn [bind]. now rewrite norm_zero.
Qed.

Lemma newton_raphson_root_fixed_witness :
  newton_raphson pinv_isometry (fun _ => Ok [0; 0; 0; 0]) (fun _ => Ok (np.array I4))
    default_e (1 / 2) 1 [100; 100; 100; 0]
  = Ok ([100; 100; 100; 0], 0).
Proof.
  refine (newton_raphson_root_fixed pinv_isometry (fun _ => Ok [0; 0; 0; 0])
            (fun _ => Ok (np.array I4)) default_e (1 / 2) 0 [100; 100; 100; 0]
            (np.array I4) _ [0; 0; 0; 0] _ _ eq_refl eq_refl eq_refl
            (all_zero_repeat 4) eq_refl eq_refl).
  unfold default_e; lra.
Defined.

(** ** Exceptions *)

Lemma bind_Raise {A B : Type} (c : result A) (k : A -> result B) (ex : exn) :
  bind c k = Raise ex ->
  c = Raise ex \/ exists a, c = Ok a /\ k a = Raise ex.
Proof.
  destruct c as [a| |]; simpl; intros H; try discriminate.
  - right. now exists a.
  - injection H as ->. now left.
Qed.

Lemma broadcast_raises {A : Type} (op : R -> R -> A) (a b : ndarray) (ex : exn) :
  np.broadcast op a b = Raise ex -> ex = ValueError.
Proof.
  unfold np.broadcast. destruct (length a =? length b)%nat; [discriminate|].
  destruct a as [|x [|x' a]]; destruct b as [|y [|y' b]];
    intros H; try discriminate; now injection H.
Qed.

Lemma column_raises {A : Type} (n : nat) (col : list A) (ex : exn) :
  np.column n col = Raise ex -> ex = ValueError.
Proof.
  unfold np.column. destruct (length col =? n)%nat; [discriminate|].
  destruct col as [|c [|c' col]]; intros H; try discriminate; now injection H.
Qed.

Lemma matmul_raises (M : matrix) (v : ndarray) (ex : exn) :
  np.matmul M v = Raise ex -> ex = ValueError.
Proof.
  unfold np.matmul. destruct (forallb _ M); intros H;
    [discriminate | now injection H].
Qed.

Ltac raise_cases H :=
  repeat match type of H with
    | bind _ _ = Raise _ =>
        apply bind_Raise in H as [H | (? & _ & H)]
    end;
  try (apply broadcast_raises in H; exact H);
  try (apply column_raises in H; exact H);
  try discriminate.

Lemma tilde_prange_raises (X Y Z : ndarray) (x y z : R) (ex : exn) :
  SolvePos.tilde_prange X Y Z x y z = Raise ex -> ex = ValueError.
Proof.
  unfold SolvePos.tilde_prange, np.add. intros H.
  apply bind_Raise in H as [H | (? & _ & H)];
    [now apply broadcast_raises in H|].
  apply bind_Raise in H as [H | (? & _ & H)];
    [now apply broadcast_raises in H | discriminate].
Qed.

Lemma f_raises (prange X Y Z B vars : ndarray) (ex : exn) :
  SolvePos.f prange X Y Z B vars = Raise ex -> ex = ValueError.
Proof.
  unfold SolvePos.f, np.subtract.
  destruct vars as [|x [|y [|z [|cdt [|? ?]]]]]; intros H;
    try (now injection H).
  apply bind_Raise in H as [H | (? & _ & H)];
    [now apply tilde_prange_raises in H|].
  apply bind_Raise in H as [H | (? & _ & H)];
    [now apply broadcast_raises in H|].
  apply bind_Raise in H as [H | (? & _ & H)];
    [now apply broadcast_raises in H | discriminate].
Qed.

Lemma df_raises (prange X Y Z B vars : ndarray) (ex : exn) :
  SolvePos.df prange X Y Z B vars = Raise ex -> ex = ValueError.
Proof.
  unfold SolvePos.df, np.subtract, np.divide.
  destruct vars as [|x [|y [|z [|cdt [|? ?]]]]]; intros H;
    try (now injection H).
  apply bind_Raise in H as [H | (? & _ & H)];
    [now apply tilde_prange_raises in H|].
  raise_cases H.
Qed.

Lemma linalg_pinv_raises (pinv : matrix -> matrix) (J : fmatrix) (ex : exn) :
  linalg_pinv pinv J = Raise ex -> ex = LinAlgError.
Proof.
  unfold linalg_pinv. destruct (np.linalg.finite_matrix J); intros H;
    [discriminate | now injection H].
Qed.

Section SolverRaises.

Variable pinv : matrix -> matrix.
Variable f : ndarray -> result ndarray.
Variable df : ndarray -> result fmatrix.
Variable e lam : R.
Hypothesis f_only : forall x ex, f x = Raise ex -> ex = ValueError.
Hypothesis df_only : forall x ex, df x = Raise ex -> ex = ValueError.

Lemma newton_step_raises (x : ndarray) (ex : exn) :
  newton_step pinv f df lam x = Raise ex ->
  ex = ValueError \/ ex = LinAlgError.
Proof using f_only df_only.
  unfold newton_step, np.subtract. intros H.
  apply bind_Raise in H as [H | (? & _ & H)];
    [left; now apply df_only in H|].
  apply bind_Raise in H as [H | (? & _ & H)];
    [right; now apply linalg_pinv_raises in H|].
  apply bind_Raise in H as [H | (? & _ & H)];
    [left; now apply f_only in H|].
  apply bind_Raise in H as [H | (? & _ & H)];
    [left; now apply matmul_raises in H|].
  left. raise_cases H.
Qed.

Lemma while_loop_raises (fuel : nat) :
  forall x d k ex,
  while_loop pinv f df e lam fuel x d k = Raise ex ->
  ex = ValueError \/ ex = LinAlgError.
Proof using f_only df_only.
  induction fuel as [|fuel IH]; intros x d k ex; cbn [while_loop];
    destruct (Rgt_dec _ e); try discriminate.
  intros H. apply bind_Raise in H as [H | ([x1 d1] & _ & H)].
  - now apply newton_step_raises in H.
  - now apply IH in H.
Qed.

Lemma newton_raphson_raises (fuel : nat) (x0 : ndarray) (ex : exn) :
  newton_raphson pinv f df e lam fuel x0 = Raise ex ->
  ex = ValueError \/ ex = LinAlgError.
Proof using f_only df_only.
  unfold newton_raphson. intros H.
  apply bind_Raise in H as [H | ([[x d] k] & _ & H)].
  - now apply while_loop_raises in H.
  - apply bind_Raise in H as [H | (? & _ & H)];
      [left; now apply f_only in H | discriminate].
Qed.

End SolverRaises.

(** A row with a non-finite entry makes the whole matrix non-finite. *)
Lemma finite_matrix_None (J : fmatrix) (i : nat) (row : farray) :
  (i < length J)%nat -> nth i J [] = None :: row ->
  np.linalg.finite_matrix J = None.
Proof.
  revert i. induction J as [|r J IH]; intros [|i] Hi Hrow; simpl in *; try lia.
  - now rewrite Hrow.
  - rewrite (IH i) by (auto; lia). now destruct (np.linalg.finite_array r).
Qed.

(** Where the candidate position is that of a satellite, the Jacobian has a
    non-finite row and its pseudo-inverse raises. *)
Lemma linalg_pinv_at_satellite
  (pinv : matrix -> matrix) (prange X Y Z B : ndarray) (x y z cdt : R)
  (J : fmatrix) (i : nat) :
  length X = length prange -> length Y = length prange ->
  length Z = length prange -> length B = length prange ->
  (i < length prange)%nat -> geometric_range X Y Z x y z i = 0 ->
  SolvePos.df prange X Y Z B [x; y; z; cdt] = Ok J ->
  linalg_pinv pinv J = Raise LinAlgError.
Proof.
  intros HX HY HZ HB Hi Hr HJ.
  rewrite (df_value prange X Y Z B (length prange)) in HJ by auto.
  injection HJ as <-. unfold linalg_pinv.
  rewrite finite_matrix_None with (i := i)
    (row := [None; None; Some (-1)]); [reflexivity| |].
  - now rewrite length_map, length_seq.
  - rewrite map_seq_nth by exact Hi.
    rewrite !(quotient_nth X Y Z (length prange)) by auto.
    now rewrite !true_divide_zero by exact Hr.
Qed.

(** The example epoch with its first satellite moved to the position of the
    initial guess. *)
Lemma newton_raphson_at_satellite_run :
  newton_raphson pinv_isometry
    (SolvePos.f ex_prange [100; 0; 0; 14284273] [100; 20200000; 0; 14284273]
       [100; 0; 20200000; 14284273] ex_B)
    (SolvePos.df ex_prange [100; 0; 0; 14284273] [100; 20200000; 0; 14284273]
       [100; 0; 20200000; 14284273] ex_B)
    default_e default_lam 1 [100; 100; 100; 0]
  = Raise LinAlgError.
Proof.
  unfold newton_raphson. cbn [while_loop].
  destruct (Rgt_dec _ default_e) as [_|N];
    [| exfalso; apply N; rewrite sum_abs_ones; unfold default_e; simpl; lra ].
  unfold newton_step.
  pose proof (df_value ex_prange [100; 0; 0; 14284273]
                [100; 20200000; 0; 14284273] [100; 0; 20200000; 14284273] ex_B 4
                eq_refl eq_refl eq_refl eq_refl eq_refl 100 100 100 0) as HJ.
  rewrite HJ. cbn [bind].
  rewrite (linalg_pinv_at_satellite pinv_isometry ex_prange [100; 0; 0; 14284273]
             [100; 20200000; 0; 14284273] [100; 0; 20200000; 14284273] ex_B
             100 100 100 0 _ 0%nat eq_refl eq_refl eq_refl eq_refl
             (Nat.lt_0_succ 3)); [reflexivity| |exact HJ].
  unfold geometric_range. cbn [nth].
  replace ((100 - 100) ^ 2 + (100 - 100) ^ 2 + (100 - 100) ^ 2) with 0 by ring.
  apply sqrt_0.
Qed.

(** X7: the only exceptions [_solve_pos] raises are [ValueError], from
    arrays whose shapes do not broadcast, and [LinAlgError], from the
    pseudo-inverse of a Jacobian with a non-finite entry; the indexing of the
    last component never fails, since the solved state has four components. *)
Theorem solve_pos_raises_shape_or_linalg_only
  (pinv : matrix -> matrix) (fuel : nat) (mem : R * R * R * R)
  (prange X Y Z B : ndarray) (e : R) (ex : exn) :
  _solve_pos pinv fuel mem prange X Y Z B e = Raise ex ->
  ex = ValueError \/ ex = LinAlgError.
Proof.
  unfold _solve_pos. destruct (length prange <? 4)%nat; [discriminate|].
  intros H. apply bind_Raise in H as [H | ([x_fix res_err] & Hnr & H)].
  - apply newton_raphson_raises in H; auto.
    + intros x ex'. apply f_raises.
    + intros x ex'. apply df_raises.
  - apply newton_raphson_length in Hnr; [|simpl; lia].
    destruct x_fix as [|x [|y [|z [|cdt [|? ?]]]]]; discriminate.
Qed.

Lemma solve_pos_raises_shape_or_linalg_only_witness :
  _solve_pos pinv_isometry 0 (1, 2, 3, 4) ex_prange [20200000; 0] ex_Y ex_Z ex_B 4
  = Raise ValueError /\
  _solve_pos pinv_isometry 1 (1, 2, 3, 4) ex_prange [100; 0; 0; 14284273]
    [100; 20200000; 0; 14284273] [100; 0; 20200000; 14284273] ex_B default_e
  = Raise LinAlgError /\
  (ValueError = ValueError \/ ValueError = LinAlgError) /\
  (LinAlgError = ValueError \/ LinAlgError = LinAlgError).
Proof.
  assert (H : _solve_pos pinv_isometry 0 (1, 2, 3, 4) ex_prange [20200000; 0]
                ex_Y ex_Z ex_B 4 = Raise ValueError).
  { unfold _solve_pos. cbn [length ex_prange Nat.ltb Nat.leb].
    unfold newton_raphson. rewrite while_loop_exit; [reflexivity|].
    rewrite sum_abs_ones. simpl. lra. }
  assert (H' : _solve_pos pinv_isometry 1 (1, 2, 3, 4) ex_prange
                 [100; 0; 0; 14284273] [100; 20200000; 0; 14284273]
                 [100; 0; 20200000; 14284273] ex_B default_e
               = Raise LinAlgError).
  { unfold _solve_pos. cbn [length ex_prange Nat.ltb Nat.leb].
    now rewrite newton_raphson_at_satellite_run. }
  split; [exact H|]. split; [exact H'|]. split.
  - exact (solve_pos_raises_shape_or_linalg_only _ _ _ _ _ _ _ _ _ _ H).
  - exact (solve_pos_raises_shape_or_linalg_only _ _ _ _ _ _ _ _ _ _ H').
Defined.

Lemma broadcast_mismatch (op : R -> R -> R) (a b : ndarray) :
  length a <> length b -> length a <> 1%nat -> length b <> 1%nat ->
  np.broadcast op a b = Raise ValueError.
Proof.
  intros Hab Ha Hb. unfold np.broadcast.
  destruct (Nat.eqb_spec (length a) (length b)) as [E|_]; [contradiction|].
  destruct a as [|x [|x' a]]; destruct b as [|y [|y' b]]; simpl in *;
    try reflexivity; congruence.
Qed.

Lemma newton_raphson_both_raise
  (pinv : matrix -> matrix) (f : ndarray -> result ndarray)
  (df : ndarray -> result fmatrix) (e lam : R) (fuel : nat) (x0 : ndarray)
  (ex : exn) :
  df x0 = Raise ex -> f x0 = Raise ex ->
  newton_raphson pinv f df e lam (S fuel) x0 = Raise ex.
Proof.
  intros Hdf Hf. unfold newton_raphson. cbn [while_loop].
  destruct (Rgt_dec _ e) as [_|_].
  - unfold newton_step. now rewrite Hdf.
  - cbn [bind]. now rewrite Hf.
Qed.

(** X8: a correction array that is neither as long as the epoch nor of
    length one does not broadcast: on an epoch of at least four satellites
    with position arrays of the epoch's length, [_solve_pos] raises
    [ValueError], for every tolerance. *)
Theorem solve_pos_bad_corrections_raise
  (pinv : matrix -> matrix) (fuel : nat) (mem : R * R * R * R)
  (prange X Y Z B : ndarray) (e : R) :
  (4 <= length prange)%nat ->
  length X = length prange -> length Y = length prange ->
  length Z = length prange ->
  length B <> length prange -> length B <> 1%nat ->
  _solve_pos pinv (S fuel) mem prange X Y Z B e = Raise ValueError.
Proof.
  intros Hn HX HY HZ HB HB1.
  assert (Hs : forall x y z cdt,
            np.subtract (np.add_scalar (ranges X Y Z x y z) cdt) B
            = Raise ValueError).
  { intros x y z cdt. apply broadcast_mismatch; auto;
      unfold np.add_scalar;
      rewrite length_map, (ranges_length X Y Z (length prange)); auto; lia. }
  unfold _solve_pos.
  destruct (Nat.ltb_spec (length prange) 4) as [G|_]; [lia|].
  rewrite newton_raphson_both_raise with (ex := ValueError); [reflexivity| |].
  - unfold SolvePos.df.
    rewrite (tilde_prange_value X Y Z (length prange)) by auto.
    cbn [bind]. now rewrite Hs.
  - unfold SolvePos.f.
    rewrite (tilde_prange_value X Y Z (length prange)) by auto.
    cbn [bind]. now rewrite Hs.
Qed.

Lemma solve_pos_bad_corrections_raise_witness :
  _solve_pos pinv_isometry 1 (1, 2, 3, 4) ex_prange ex_X ex_Y ex_Z [0; 0]
    default_e = Raise ValueError.
Proof.
  apply (solve_pos_bad_corrections_raise pinv_isometry 0 (1, 2, 3, 4)
           ex_prange ex_X ex_Y ex_Z [0; 0] default_e);
    simpl; (reflexivity || lia).
Defined.

(** ** A single correction for all satellites *)


Section SolverExt.

Variable pinv : matrix -> matrix.
Variables f f' : ndarray -> result ndarray.
Variables df df' : ndarray -> result fmatrix.
Variable e lam : R.
Hypothesis f_ext : forall x, f x = f' x.
Hypothesis df_ext : forall x, df x = df' x.




End SolverExt.



(** ** Shape, tolerance and residual norm *)

(** X10: [newton_raphson] returns a state with as many components as the
    initial guess, for every residual, Jacobian and pseudo-inverse, provided
    the guess has not exactly one component (a lone component would be
    stretched by broadcasting). *)
Theorem newton_raphson_keeps_shape
  (pinv : matrix -> matrix) (f : ndarray -> result ndarray)
  (df : ndarray -> result fmatrix) (e lam : R) (fuel : nat)
  (x0 x : ndarray) (nrm : R) :
  length x0 <> 1%nat ->
  newton_raphson pinv f df e lam fuel x0 = Ok (x, nrm) ->
  length x = length x0.
Proof.
  intros Hx H. now apply newton_raphson_length in H.
Qed.

(** X11: a tolerance of four or more switches the solver off.  On every
    epoch of at least four satellites whose arrays have the same length,
    [_solve_pos] then returns the initial guess [(100, 100, 100, 0)],
    whatever the measurements are, without a pass of the loop. *)
Theorem solve_pos_large_tolerance_returns_guess
  (pinv : matrix -> matrix) (fuel : nat) (mem : R * R * R * R)
  (prange X Y Z B : ndarray) (e : R) :
  (4 <= length prange)%nat ->
  length X = length prange -> length Y = length prange ->
  length Z = length prange -> length B = length prange ->
  4 <= e ->
  _solve_pos pinv fuel mem prange X Y Z B e = Ok [100; 100; 100; 0].
Proof.
  intros Hn HX HY HZ HB He. unfold _solve_pos.
  destruct (Nat.ltb_spec (length prange) 4) as [G|_]; [lia|].
  unfold newton_raphson.
  rewrite while_loop_exit by (rewrite sum_abs_ones; simpl; lra).
  cbn [bind]. rewrite (f_value prange X Y Z B (length prange)) by auto.
  cbn [bind np.getitem_last np.setitem_last last removelast app].
  unfold Rdiv. apply f_equal. vec_ring.
Qed.

Lemma solve_pos_large_tolerance_returns_guess_witness :
  _solve_pos pinv_isometry 0 (1, 2, 3, 4) ex_prange ex_X ex_Y ex_Z ex_B 5
  = Ok [100; 100; 100; 0].
Proof.
  apply (solve_pos_large_tolerance_returns_guess pinv_isometry 0 (1, 2, 3, 4)
           ex_prange ex_X ex_Y ex_Z ex_B 5); try reflexivity; lra.
Defined.

Lemma sum_square_nonneg (r : ndarray) : 0 <= np.sum (np.square r).
Proof.
  induction r as [|a r IH]; [simpl; lra|].
  change (0 <= a ^ 2 + np.sum (np.square r)).
  pose proof (pow2_ge_0 a). lra.
Qed.

Lemma sum_square_zero (r : ndarray) : np.sum (np.square r) = 0 -> all_zero r.
Proof.
  induction r as [|a r IH]; intros H; [constructor|].
  change (a ^ 2 + np.sum (np.square r) = 0) in H.
  pose proof (pow2_ge_0 a) as Ha. pose proof (sum_square_nonneg r) as Hr.
  constructor.
  - assert (E : a ^ 2 = 0) by lra. simpl in E.
    destruct (Rmult_integral _ _ E) as [E1|E1]; [exact E1|]. lra.
  - apply IH. lra.
Qed.

(** X12: the second component of what [newton_raphson] returns is never
    negative, and it is zero exactly when the residual at the returned state
    is the zero vector. *)
Theorem newton_raphson_norm_zero_iff_root
  (pinv : matrix -> matrix) (f : ndarray -> result ndarray)
  (df : ndarray -> result fmatrix) (e lam : R) (fuel : nat)
  (x0 x : ndarray) (nrm : R) :
  newton_raphson pinv f df e lam fuel x0 = Ok (x, nrm) ->
  0 <= nrm /\ (nrm = 0 <-> exists r, f x = Ok r /\ all_zero r).
Proof.
  unfold newton_raphson. intros H.
  apply bind_Ok in H as ([[y d] k] & _ & H).
  apply bind_Ok in H as (r & Hr & H). injection H as <- <-.
  unfold np.linalg.norm. split; [apply sqrt_pos|]. split.
  - intros H0. exists r. split; [exact Hr|].
    apply sum_square_zero. apply sqrt_eq_0; [apply sum_square_nonneg | exact H0].
  - intros (r' & Hr' & Hz). rewrite Hr in Hr'. injection Hr' as <-.
    now apply norm_zero.
Qed.

Lemma newton_raphson_norm_zero_iff_root_witness :
  0 <= np.linalg.norm
         (map2 Rminus ex_prange (modeled ex_X ex_Y ex_Z ex_B 100 100 100 0)) /\
  (np.linalg.norm
     (map2 Rminus ex_prange (modeled ex_X ex_Y ex_Z ex_B 100 100 100 0)) = 0 <->
   exists r, SolvePos.f ex_prange ex_X ex_Y ex_Z ex_B [100; 100; 100; 0] = Ok r /\
             all_zero r).
Proof.
  exact (newton_raphson_norm_zero_iff_root pinv_isometry _ _ 4 default_lam 0
           [100; 100; 100; 0] [100; 100; 100; 0] _
           (newton_raphson_example_run 0)).
Defined.

(** X13: the Jacobian is evaluated first.  When the tolerance is below the
    number of components of [x0] and [df] raises at [x0], [newton_raphson]
    raises that exception, whatever [f] would do; when the tolerance is not
    below it, [df] is not evaluated at all and the outcome is that of [f]
    at [x0]. *)
Theorem newton_raphson_jacobian_failure
  (pinv : matrix -> matrix) (f : ndarray -> result ndarray)
  (df : ndarray -> result fmatrix) (e lam : R) (fuel : nat)
  (x0 : ndarray) (ex : exn) :
  df x0 = Raise ex ->
  (e < INR (length x0) ->
   newton_raphson pinv f df e lam (S fuel) x0 = Raise ex) /\
  (INR (length x0) <= e ->
   newton_raphson pinv f df e lam fuel x0
   = (r <- f x0 ;; Ok (x0, np.linalg.norm r))).
Proof.
  intros Hdf. split; intros He; unfold newton_raphson.
  - cbn [while_loop].
    destruct (Rgt_dec _ e) as [_|N];
      [| exfalso; apply N; rewrite sum_abs_ones; lra ].
    unfold newton_step. now rewrite Hdf.
  - now rewrite while_loop_exit by (rewrite sum_abs_ones; exact He).
Qed.

Lemma newton_raphson_jacobian_failure_witness :
  (default_e < INR 4 ->
   newton_raphson pinv_isometry (fun _ => Raise Exception)
     (fun _ => Raise IndexError) default_e default_lam 1 [100; 100; 100; 0]
   = Raise IndexError) /\
  (INR 4 <= default_e ->
   newton_raphson pinv_isometry (fun _ => Raise Exception)
     (fun _ => Raise IndexError) default_e default_lam 0 [100; 100; 100; 0]
   = (r <- Raise Exception ;; Ok ([100; 100; 100; 0], np.linalg.norm r))).
Proof.
  exact (newton_raphson_jacobian_failure pinv_isometry (fun _ => Raise Exception)
           (fun _ => Raise IndexError) default_e default_lam 0
           [100; 100; 100; 0] IndexError eq_refl).
Defined.

(** ** Invariance under a change of origin *)

Lemma geometric_range_shift (X Y Z : ndarray) (x y z tx ty tz : R) (n i : nat) :
  length X = n -> length Y = n -> length Z = n -> (i < n)%nat ->
  geometric_range (map (fun a => a + tx) X) (map (fun a => a + ty) Y)
    (map (fun a => a + tz) Z) (x + tx) (y + ty) (z + tz) i
  = geometric_range X Y Z x y z i.
Proof.
  intros HX HY HZ Hi. unfold geometric_range.
  rewrite !map_nth_lt by lia. f_equal. ring.
Qed.

(** X14: the residual sees relative positions only: moving the candidate
    position and every satellite by the same offset leaves it unchanged. *)
Theorem residual_translation_invariant
  (prange X Y Z B : ndarray) (x y z cdt tx ty tz : R) :
  length X = length prange -> length Y = length prange ->
  length Z = length prange -> length B = length prange ->
  SolvePos.f prange (map (fun a => a + tx) X) (map (fun a => a + ty) Y)
    (map (fun a => a + tz) Z) B [x + tx; y + ty; z + tz; cdt]
  = SolvePos.f prange X Y Z B [x; y; z; cdt].
Proof.
  intros HX HY HZ HB.
  rewrite (f_value prange X Y Z B (length prange)) by auto.
  rewrite (f_value prange _ _ _ B (length prange))
    by (rewrite ?length_map; auto).
  do 2 f_equal.
  apply nth_ext with (d := 0) (d' := 0).
  - rewrite !(modeled_length _ _ _ B (length prange));
      rewrite ?length_map; auto.
  - intros i Hi.
    rewrite (modeled_length _ _ _ B (length prange)) in Hi
      by (rewrite ?length_map; auto).
    rewrite !(modeled_nth _ _ _ B (length prange))
      by (rewrite ?length_map; auto).
    now rewrite (geometric_range_shift X Y Z x y z tx ty tz (length prange)).
Qed.

Lemma residual_translation_invariant_witness :
  SolvePos.f ex_prange (map (fun a => a + 1) ex_X) (map (fun a => a + 2) ex_Y)
    (map (fun a => a + 3) ex_Z) ex_B [100 + 1; 100 + 2; 100 + 3; 0]
  = SolvePos.f ex_prange ex_X ex_Y ex_Z ex_B [100; 100; 100; 0].
Proof.
  apply (residual_translation_invariant ex_prange ex_X ex_Y ex_Z ex_B
           100 100 100 0 1 2 3); reflexivity.
Defined.

(** ** A run of the solver on the clock-offset epoch *)

Ltac mat_field :=
  repeat (apply (f_equal2 (@cons (list R)));
          [ repeat (apply (f_equal2 (@cons R)); [ try (field; lra) | ]);
            try reflexivity
          | ]);
  try reflexivity.

Lemma inverse_clock_J : inverse clock_J = clock_P.
Proof.
  unfold inverse, clock_J, clock_P.
  cbn [length seq map Nat.sub Nat.add det minor remove_nth hd nth np.sum
       fold_right sign Nat.even].
  mat_field.
Qed.

(** [clock_P] undoes [clock_J]. *)
Lemma clock_P_left_inverse (v w : ndarray) :
  length v = 4%nat -> np.matmul clock_J v = Ok w -> np.matmul clock_P w = Ok v.
Proof.
  destruct v as [|a [|b [|c [|d [|? ?]]]]]; try discriminate. intros _ H.
  unfold np.matmul in H. simpl in H. injection H as <-.
  unfold np.matmul, np.dot, np.sum. simpl. apply f_equal.
  repeat (apply (f_equal2 (@cons R)); [ field | ]); reflexivity.
Qed.

Lemma clock_range (cdt : R) (i : nat) :
  (i < 4)%nat -> geometric_range clock_X clock_Y clock_Z 100 100 100 i = 20000000.
Proof.
  intros Hi. unfold geometric_range.
  assert (S : sqrt (20000000 ^ 2) = 20000000) by (apply sqrt_pow2; lra).
  destruct i as [|[|[|[|i]]]]; cbn [nth clock_X clock_Y clock_Z]; [| | | |lia].
  - replace ((100 - 20000100) ^ 2 + (100 - 100) ^ 2 + (100 - 100) ^ 2)
      with (20000000 ^ 2) by ring. exact S.
  - replace ((100 - 100) ^ 2 + (100 - 20000100) ^ 2 + (100 - 100) ^ 2)
      with (20000000 ^ 2) by ring. exact S.
  - replace ((100 - 100) ^ 2 + (100 - 100) ^ 2 + (100 - 20000100) ^ 2)
      with (20000000 ^ 2) by ring. exact S.
  - replace ((100 - -19999900) ^ 2 + (100 - 100) ^ 2 + (100 - 100) ^ 2)
      with (20000000 ^ 2) by ring. exact S.
Qed.

Lemma clock_df (cdt : R) :
  SolvePos.df clock_prange clock_X clock_Y clock_Z clock_B [100; 100; 100; cdt]
  = Ok (np.array clock_J).
Proof.
  rewrite (df_value clock_prange clock_X clock_Y clock_Z clock_B 4)
    by reflexivity.
  apply f_equal. cbn [seq map].
  rewrite !(quotient_nth clock_X clock_Y clock_Z 4) by (reflexivity || lia).
  rewrite !(clock_range cdt) by lia.
  rewrite !true_divide_nonzero by lra.
  unfold np.array, clock_J. cbn [map nth clock_X clock_Y clock_Z].
  repeat (apply (f_equal2 (@cons (list (option R))));
          [ repeat (apply (f_equal2 (@cons (option R)));
                    [ try (apply f_equal; lra) | ]);
            try reflexivity
          | ]);
  try reflexivity.
Qed.

Lemma clock_f (cdt : R) :
  SolvePos.f clock_prange clock_X clock_Y clock_Z clock_B [100; 100; 100; cdt]
  = Ok [1 - cdt; 1 - cdt; 1 - cdt; 1 - cdt].
Proof.
  rewrite (f_value clock_prange clock_X clock_Y clock_Z clock_B 4)
    by reflexivity.
  apply f_equal. apply nth_ext with (d := 0) (d' := 0).
  - rewrite map2_length;
      [reflexivity
      | now rewrite (modeled_length clock_X clock_Y clock_Z clock_B 4)].
  - intros i Hi.
    rewrite map2_length in Hi
      by now rewrite (modeled_length clock_X clock_Y clock_Z clock_B 4).
    change (length clock_prange) with 4%nat in Hi.
    rewrite map2_nth;
      [| now rewrite (modeled_length clock_X clock_Y clock_Z clock_B 4)
       | exact Hi ].
    rewrite (modeled_nth clock_X clock_Y clock_Z clock_B 4)
      by (reflexivity || exact Hi).
    rewrite (clock_range cdt) by exact Hi.
    destruct i as [|[|[|[|i]]]]; cbn [nth clock_prange clock_B]; try lia; lra.
Qed.

(** The first pass moves the clock term by one metre and nothing else; at
    the state it reaches the residual is zero. *)
Lemma clock_step (cdt : R) :
  newton_step pinv_inverse
    (SolvePos.f clock_prange clock_X clock_Y clock_Z clock_B)
    (SolvePos.df clock_prange clock_X clock_Y clock_Z clock_B)
    default_lam [100; 100; 100; cdt]
  = Ok ([100; 100; 100; 1], [0; 0; 0; cdt - 1]).
Proof.
  unfold newton_step, default_lam. rewrite clock_df. cbn [bind].
  rewrite linalg_pinv_array. unfold pinv_inverse. rewrite inverse_clock_J.
  cbn [bind]. rewrite clock_f. cbn [bind].
  unfold np.matmul, clock_P, np.dot, np.sum, np.scalar_mul, np.subtract.
  cbn [forallb length Nat.eqb andb map map2 fold_right bind].
  rewrite broadcast_same by reflexivity. cbn [bind map2].
  apply f_equal. apply f_equal2; vec_ring; field.
Qed.

Lemma clock_run (fuel : nat) :
  newton_raphson pinv_inverse
    (SolvePos.f clock_prange clock_X clock_Y clock_Z clock_B)
    (SolvePos.df clock_prange clock_X clock_Y clock_Z clock_B)
    default_e default_lam (S (S fuel)) [100; 100; 100; 0]
  = Ok ([100; 100; 100; 1], 0).
Proof.
  unfold newton_raphson. cbn [while_loop].
  destruct (Rgt_dec _ default_e) as [_|N];
    [| exfalso; apply N; rewrite sum_abs_ones; unfold default_e; simpl; lra ].
  rewrite clock_step. cbn [bind].
  destruct (Rgt_dec _ default_e) as [_|N].
  - rewrite clock_step. cbn [bind].
    rewrite while_loop_exit.
    + cbn [bind]. rewrite clock_f. cbn [bind]. f_equal. f_equal.
      apply norm_zero. repeat constructor; lra.
    + rewrite sum_abs_zero; [unfold default_e; lra|].
      repeat constructor; lra.
  - exfalso. apply N. unfold np.sum, np.abs, default_e. cbn [map fold_right].
    rewrite Rabs_R0. rewrite (Rabs_left (0 - 1)) by lra. lra.
Qed.

Lemma clock_solve_pos (fuel : nat) (mem : R * R * R * R) :
  _solve_pos pinv_inverse (S (S fuel)) mem clock_prange clock_X clock_Y clock_Z
    clock_B default_e
  = Ok [100; 100; 100; 1 * 1000000 / gpsconsts.C].
Proof.
  unfold _solve_pos. cbn [length clock_prange Nat.ltb Nat.leb].
  now rewrite clock_run.
Qed.

(** ** Closed runs of the claims on the clock-offset epoch *)

Lemma solve_pos_rescales_clock_bias_only_witness :
  (4 <= length clock_prange)%nat /\
  newton_raphson pinv_inverse
    (SolvePos.f clock_prange clock_X clock_Y clock_Z clock_B)
    (SolvePos.df clock_prange clock_X clock_Y clock_Z clock_B)
    default_e default_lam 2 [100; 100; 100; 0]
  = Ok ([100; 100; 100; 1], 0) /\
  _solve_pos pinv_inverse 2 (1, 2, 3, 4) clock_prange clock_X clock_Y clock_Z
    clock_B default_e
  = Ok [100; 100; 100; 1 * 1000000 / gpsconsts.C].
Proof.
  split; [simpl; lia|]. split; [exact (clock_run 0)|].
  destruct (solve_pos_rescales_clock_bias_only pinv_inverse 2 (1, 2, 3, 4)
              clock_prange clock_X clock_Y clock_Z clock_B default_e
              [100; 100; 100; 1] 0 (le_n 4) (clock_run 0))
    as (x & y & z & cdt & E & H).
  injection E as <- <- <- <-. exact H.
Defined.

Lemma solve_pos_initial_guess_witness :
  (4 <= length clock_prange)%nat /\
  _solve_pos pinv_inverse 2 (1, 2, 3, 4) clock_prange clock_X clock_Y clock_Z
    clock_B default_e
  = Ok [100; 100; 100; 1 * 1000000 / gpsconsts.C] /\
  exists j x y z cdt d r,
    (j <= 2)%nat /\
    iterate pinv_inverse
      (SolvePos.f clock_prange clock_X clock_Y clock_Z clock_B)
      (SolvePos.df clock_prange clock_X clock_Y clock_Z clock_B)
      default_lam j ([100; 100; 100; 0], np.ones_like [100; 100; 100; 0])
    = Ok ([x; y; z; cdt], d) /\
    np.sum (np.abs d) <= default_e /\
    (forall i, (i < j)%nat ->
       exists xi di,
         iterate pinv_inverse
           (SolvePos.f clock_prange clock_X clock_Y clock_Z clock_B)
           (SolvePos.df clock_prange clock_X clock_Y clock_Z clock_B)
           default_lam i ([100; 100; 100; 0], np.ones_like [100; 100; 100; 0])
         = Ok (xi, di) /\
         np.sum (np.abs di) > default_e) /\
    SolvePos.f clock_prange clock_X clock_Y clock_Z clock_B [x; y; z; cdt]
    = Ok r /\
    [100; 100; 100; 1 * 1000000 / gpsconsts.C]
    = [x; y; z; cdt * 1000000 / gpsconsts.C].
Proof.
  split; [simpl; lia|]. split; [exact (clock_solve_pos 0 (1, 2, 3, 4))|].
  exact (proj1 (proj1 (solve_pos_initial_guess pinv_inverse 2 (1, 2, 3, 4)
                         (5, 6, 7, 8) clock_prange clock_X clock_Y clock_Z
                         clock_B default_e _ (le_n 4)))
           (clock_solve_pos 0 (1, 2, 3, 4))).
Defined.

Lemma newton_raphson_keeps_shape_witness :
  length [100; 100; 100; 0] <> 1%nat /\
  newton_raphson pinv_inverse
    (SolvePos.f clock_prange clock_X clock_Y clock_Z clock_B)
    (SolvePos.df clock_prange clock_X clock_Y clock_Z clock_B)
    default_e default_lam 2 [100; 100; 100; 0]
  = Ok ([100; 100; 100; 1], 0) /\
  length [100; 100; 100; 1] = length [100; 100; 100; 0].
Proof.
  assert (Hx : length [100; 100; 100; 0] <> 1%nat) by (simpl; lia).
  split; [exact Hx|]. split; [exact (clock_run 0)|].
  exact (newton_raphson_keeps_shape pinv_inverse _ _ default_e default_lam 2
           [100; 100; 100; 0] [100; 100; 100; 1] 0 Hx (clock_run 0)).
Defined.

(** ** A satellite at the initial guess *)

(** X15: when a satellite of the epoch is at the position [(100, 100, 100)]
    of the initial guess, the first Jacobian has a row that is not of
    numbers and [np.linalg.pinv] raises: on an epoch of at least four
    satellites with arrays of the same length, [_solve_pos] raises
    [LinAlgError] for every tolerance below four. *)
Theorem solve_pos_satellite_at_guess_raises
  (pinv : matrix -> matrix) (fuel : nat) (mem : R * R * R * R)
  (prange X Y Z B : ndarray) (e : R) (i : nat) :
  (4 <= length prange)%nat ->
  length X = length prange -> length Y = length prange ->
  length Z = length prange -> length B = length prange ->
  (i < length prange)%nat ->
  nth i X 0 = 100 -> nth i Y 0 = 100 -> nth i Z 0 = 100 ->
  e < 4 ->
  _solve_pos pinv (S fuel) mem prange X Y Z B e = Raise LinAlgError.
Proof.
  intros Hn HX HY HZ HB Hi Hx Hy Hz He.
  assert (Hr : geometric_range X Y Z 100 100 100 i = 0).
  { unfold geometric_range. rewrite Hx, Hy, Hz.
    replace ((100 - 100) ^ 2 + (100 - 100) ^ 2 + (100 - 100) ^ 2) with 0 by ring.
    apply sqrt_0. }
  pose proof (df_value prange X Y Z B (length prange) eq_refl HX HY HZ HB
                100 100 100 0) as HJ.
  unfold _solve_pos.
  destruct (Nat.ltb_spec (length prange) 4) as [G|_]; [lia|].
  unfold newton_raphson. cbn [while_loop].
  destruct (Rgt_dec _ e) as [_|N];
    [| exfalso; apply N; rewrite sum_abs_ones; simpl; lra ].
  unfold newton_step. rewrite HJ. cbn [bind].
  now rewrite (linalg_pinv_at_satellite pinv prange X Y Z B 100 100 100 0 _ i
                 HX HY HZ HB Hi Hr HJ).
Qed.

Lemma solve_pos_satellite_at_guess_raises_witness :
  _solve_pos pinv_isometry 1 (1, 2, 3, 4) ex_prange [100; 0; 0; 14284273]
    [100; 20200000; 0; 14284273] [100; 0; 20200000; 14284273] ex_B default_e
  = Raise LinAlgError.
Proof.
  apply (solve_pos_satellite_at_guess_raises pinv_isometry 0 (1, 2, 3, 4)
           ex_prange [100; 0; 0; 14284273] [100; 20200000; 0; 14284273]
           [100; 0; 20200000; 14284273] ex_B default_e 0);
    try reflexivity; try (simpl; lia).
  unfold default_e; lra.
Defined.
